(** * Verification of the archive volume of the unpacker extension

    The development embeds two parts of the repository:

    - [src/unpacker/cpp/volume.cc]: the metadata tree construction
      ([CreateEntry], [ConstructMetadata]) and the request dispatch of
      [Volume] ([ReadFileCallback], [ReadChunkDone], [ReadChunkError],
      [CleanupVolumeArchive], [GetVolumeArchive], [CloseFileCallback]);
    - the windowed [ReadData] of [VolumeArchiveLibarchive], whose
      implementation file is not among the sources and which is therefore
      modelled from the specification (section 4.4) and from its unit test
      [volume_archive_libarchive_read_test.cc]. *)

From Stdlib Require Import ZArith String Ascii DecimalString Lia.
From Stdlib Require Import Strings.Byte.
From stdpp Require Import gmap strings list.
From Equations Require Import Equations.

Set Warnings "-register-all".
Open Scope string_scope.
Open Scope list_scope.

(** ** Debug assertions

    A function that contains a [PP_DCHECK] (or reaches a [PP_NOTREACHED] of
    the Pepper wrappers) returns an [option]: [None] stands for the failed
    assertion.  Every theorem below exhibits the [Some] result, so that no
    statement holds only because an assertion stopped the run. *)

Definition PP_DCHECK (cond : bool) : option unit :=
  if cond then Some tt else None.

(** ** pp::Var and pp::VarDictionary

    The Pepper values the metadata tree is made of.  A dictionary maps
    string keys to values; dictionaries nest.  [Get] of a missing key (or on
    a value that is not a dictionary) is the undefined value; [Set] stores
    at the key, replacing what was there; constructing a
    [pp::VarDictionary] from a value that is not a dictionary trips
    [PP_NOTREACHED].  The handles of the source are reference counted; no
    dictionary of the tree is reachable twice, so values stand for them. *)

Inductive Var : Type :=
| VUndefined
| VBool (b : bool)
| VString (s : string)
| VDict (d : gmap string Var).

Definition is_undefined (v : Var) : bool :=
  match v with VUndefined => true | _ => false end.

Definition is_dictionary (v : Var) : bool :=
  match v with VDict _ => true | _ => false end.

Definition AsBool (v : Var) : bool :=
  match v with VBool b => b | _ => false end.

Definition Get (d : Var) (key : string) : Var :=
  match d with
  | VDict m => default VUndefined (m !! key)
  | _ => VUndefined
  end.

Definition Set_ (d : Var) (key : string) (value : Var) : Var :=
  match d with
  | VDict m => VDict (<[key := value]> m)
  | _ => d
  end.

Definition VarDictionary (v : Var) : option Var :=
  if is_dictionary v then Some v else None.

(** [operator<<] of a stream on a signed integer: its decimal numeral. *)
Definition decimal (z : Z) : string := NilZero.string_of_int (Z.to_int z).

(** ** Metadata tree (volume.cc, lines 14-98) *)

Definition kPathDelimiter : string := "/".

Definition CreateEntry (name : string) (is_directory : bool)
    (size : Z) (modification_time : Z) : Var :=
  let entry_metadata := VDict ∅ in
  let entry_metadata := Set_ entry_metadata "isDirectory" (VBool is_directory) in
  let entry_metadata := Set_ entry_metadata "name" (VString name) in
  let entry_metadata := Set_ entry_metadata "size" (VString (decimal size)) in
  let entry_metadata :=
    Set_ entry_metadata "modificationTime" (VString (decimal modification_time)) in
  if is_directory then Set_ entry_metadata "entries" (VDict ∅) else entry_metadata.

(** [entry_path.substr(pos)]: the suffix that starts at [pos]. *)
Definition substr_from (pos : nat) (s : string) : string :=
  substring pos (String.length s - pos) s.

(** [ConstructMetadata] returns the updated [*parent_metadata].  It calls
    itself on the path that follows the first delimiter, which is strictly
    shorter than [entry_path].  [index 0 kPathDelimiter] is
    [entry_path.find(kPathDelimiter)], with [None] for [npos]: the source
    keeps the position in an [unsigned int], which has the width of
    [size_t] on the 32-bit targets of a Native Client module. *)
Equations? ConstructMetadata (entry_path : string) (size : Z)
    (is_directory : bool) (modification_time : Z) (parent_metadata : Var)
    : option Var by wf (String.length entry_path) lt :=
ConstructMetadata entry_path size is_directory modification_time parent_metadata
    with string_dec entry_path "" := {
  | left _ => Some parent_metadata
  | right _ =>
      parent_entries ← VarDictionary (Get parent_metadata "entries");
      match index 0 kPathDelimiter entry_path with
      | None => (* The entry itself. *)
          let entry_name := entry_path in
          let entry_metadata :=
            CreateEntry entry_name is_directory size modification_time in
          let old_entry_metadata_var := Get parent_entries entry_name in
          entry_metadata ←
            (if negb (is_undefined old_entry_metadata_var) then
               old_entry_metadata ← VarDictionary old_entry_metadata_var;
               PP_DCHECK (AsBool (Get old_entry_metadata "isDirectory"));;
               Some (Set_ entry_metadata "entries"
                          (Get old_entry_metadata "entries"))
             else Some entry_metadata);
          let parent_entries := Set_ parent_entries entry_name entry_metadata in
          Some (Set_ parent_metadata "entries" parent_entries)
      | Some position => (* Get next parent on the way to the entry. *)
          let entry_name := substring 0 position entry_path in
          let entry_metadata_var := Get parent_entries entry_name in
          entry_metadata ←
            (if is_undefined entry_metadata_var
             then Some (CreateEntry entry_name true 0 modification_time)
             else VarDictionary (Get parent_entries entry_name));
          let entry_path_without_next_parent :=
            substr_from (position + String.length kPathDelimiter) entry_path in
          entry_metadata ←
            ConstructMetadata entry_path_without_next_parent size
              is_directory modification_time entry_metadata;
          let parent_entries := Set_ parent_entries entry_name entry_metadata in
          Some (Set_ parent_metadata "entries" parent_entries)
      end }.
Proof.
  subst entry_path_without_next_parent. unfold substr_from.
  change (String.length kPathDelimiter) with 1.
  assert (∀ (text : string) (i j : nat), String.length (substring i j text) <= j)
    as length_substring_le.
  { induction text as [|c text IH]; intros [|i] [|j]; simpl; try lia.
    - specialize (IH 0 j). lia.
    - apply IH.
    - apply IH. }
  pose proof (length_substring_le entry_path (position + 1)
                (String.length entry_path - (position + 1))).
  destruct entry_path as [|c rest]; [congruence |].
  change (String.length (String c rest)) with (S (String.length rest)) in *.
  lia.
Qed.

(** The root the tree is grown from (ReadMetadataCallback, line 226). *)
Definition root_metadata : Var := CreateEntry kPathDelimiter true 0 0.

(** Inserting a sequence of headers, as the loop of ReadMetadataCallback
    does, stopping at the first failed assertion. *)
Fixpoint ConstructAll (headers : list (string * Z * bool * Z)) (root : Var)
    : option Var :=
  match headers with
  | [] => Some root
  | (path_name, size, is_directory, modification_time) :: rest =>
      root' ← ConstructMetadata path_name size is_directory modification_time root;
      ConstructAll rest root'
  end.

(** The node reached from [v] by following child names through "entries". *)
Fixpoint node_at (path : list string) (v : Var) : option Var :=
  match path with
  | [] => Some v
  | name :: path' =>
      match Get (Get v "entries") name with
      | VDict m => node_at path' (VDict m)
      | _ => None
      end
  end.

(** A node is consistent when it carries a children mapping exactly when
    it is flagged as a directory. *)
Definition entries_iff_directory (node : Var) : Prop :=
  is_dictionary (Get node "entries") = true <-> Get node "isDirectory" = VBool true.

(** A tree is consistent when every node reachable from it is. *)
Definition consistent_tree (tree : Var) : Prop :=
  ∀ path node, node_at path tree = Some node → entries_iff_directory node.

(** The trees the theorems on [ConstructMetadata] compare its results
    with: the file "b.txt", the node "a" that holds it, the directory with
    the empty name, and a root with one child. *)
Definition file_b (size_b mtime_b : Z) : Var :=
  CreateEntry "b.txt" false size_b mtime_b.

Definition merged_a (size_b mtime_b size_a mtime_a : Z) (is_directory : bool) : Var :=
  Set_ (CreateEntry "a" is_directory size_a mtime_a) "entries"
       (VDict {["b.txt" := file_b size_b mtime_b]}).

Definition unnamed_directory (size_b mtime_b size_a mtime_a : Z) : Var :=
  Set_ (CreateEntry "" true 0 mtime_b) "entries"
       (VDict {["a" := merged_a size_b mtime_b size_a mtime_a true]}).

Definition tree_with (name : string) (child : Var) : Var :=
  Set_ root_metadata "entries" (VDict {[name := child]}).

(** ** Windowed ReadData of VolumeArchiveLibarchive

    [volume_archive_libarchive.cc] is not among the sources; only its unit
    test is.  The definitions of this module follow section 4.4 and
    section 6 of the specification.  The two constants of
    [volume_archive_constants] the model needs are parameters. *)

Module VolumeArchiveLibarchive.
Section WithConstants.

(** Largest number of bytes asked of the decoder in one call. *)
Variable kMaximumDataChunkSize : Z.
(** The fixed text that starts every read-data error message. *)
Variable kArchiveReadDataErrorPrefix : string.

(** Modelled from the spec: the decoder capability of section 6
    ([readEntryData(maxBytes) -> bytes|error], [lastError() -> string]),
    bound to the entry that was reached by header iteration.  The decoder
    is forward-only: [consumed] counts the bytes of the entry it has
    produced so far.  [entry_data = None] is the situation of the
    read-failure tests: the chunk pipeline supplies no data, and every
    decode call fails. *)
Record Decoder : Type := {
  entry_data : option (list byte);
  consumed : nat;
  lastError : string
}.

(** Modelled from the spec: [readEntryData(maxBytes)], absent from the
    sources.  It produces the next bytes of the entry, at most [maxBytes]
    of them and none at the end of the entry; [None] is the decoder's
    error. *)
Definition readEntryData (d : Decoder) (maxBytes : Z)
    : option (list byte * Decoder) :=
  match entry_data d with
  | None => None
  | Some data =>
      let bytes := take (Z.to_nat maxBytes) (drop (consumed d) data) in
      Some (bytes, {| entry_data := entry_data d;
                      consumed := consumed d + length bytes;
                      lastError := lastError d |})
  end.

(** Modelled from the spec: restarting the decode of the entry from its
    beginning (section 4.4, second bullet). *)
Definition restartEntry (d : Decoder) : Decoder :=
  {| entry_data := entry_data d; consumed := 0; lastError := lastError d |}.

(** Modelled from the spec: "reads larger than the maximum chunk size are
    serviced by repeated bounded decode calls".  [decodeBytes d n] pulls
    up to [n] bytes from the decoder, at most [kMaximumDataChunkSize] per
    call, and stops early at the end of the entry.  [None] is a decoder
    error. *)
Equations? decodeBytes (d : Decoder) (n : Z)
    : option (list byte * Decoder) by wf (Z.to_nat n) lt :=
decodeBytes d n with decide (n ≤ 0)%Z := {
  | left _ => Some ([], d)
  | right _ with readEntryData d (Z.min n kMaximumDataChunkSize) := {
      | None => None
      | Some (bytes, d') with decide (bytes = []) := {
          | left _ => Some ([], d')
          | right _ =>
              match decodeBytes d' (n - Z.of_nat (length bytes)) with
              | None => None
              | Some (rest, d'') => Some (bytes ++ rest, d'')
              end } } }.
Proof. destruct bytes; [done | simpl length; lia]. Qed.

(** Modelled from the spec: the archive session of section 3 (decoder
    state, current sequential decode offset, optional error message). *)
Record ArchiveSession : Type := {
  decoder : Decoder;
  last_read_data_offset : Z;
  error_message : option string
}.

(** Modelled from the spec: on a failed read "the session's error message
    is set to a defined prefix concatenated with the decoder's own failure
    string" (section 4.4, last bullet). *)
Definition set_error (s : ArchiveSession) : ArchiveSession :=
  {| decoder := decoder s;
     last_read_data_offset := last_read_data_offset s;
     error_message :=
       Some (kArchiveReadDataErrorPrefix +:+ lastError (decoder s)) |}.

(** Storing [bytes] from the start of the caller's buffer; the bytes of
    the buffer after them keep their value. *)
Definition store (bytes buffer : list byte) : list byte :=
  take (length buffer) bytes ++ drop (length bytes) buffer.

(** Modelled from the spec: [readData(offset, length, outBuffer) -> bool]
    of section 4.4.  The result is the returned flag, the contents of the
    buffer after the call and the session after the call. *)
Definition ReadData (s : ArchiveSession) (offset length : Z)
    (buffer : list byte) : bool * list byte * ArchiveSession :=
  (* Behind the cursor: restart the entry from its beginning. *)
  let s :=
    if decide (offset < last_read_data_offset s)%Z
    then {| decoder := restartEntry (decoder s);
            last_read_data_offset := 0;
            error_message := error_message s |}
    else s in
  (* Ahead of the cursor: decode and discard the intervening bytes. *)
  match decodeBytes (decoder s) (offset - last_read_data_offset s) with
  | None => (false, buffer, set_error s)
  | Some (skipped, d) =>
      let s := {| decoder := d;
                  last_read_data_offset :=
                    last_read_data_offset s + Z.of_nat (List.length skipped);
                  error_message := error_message s |} in
      (* At the cursor: read the window, as far as the entry goes. *)
      match decodeBytes d length with
      | None => (false, buffer, set_error s)
      | Some (bytes, d) =>
          (true, store bytes buffer,
           {| decoder := d;
              last_read_data_offset :=
                last_read_data_offset s + Z.of_nat (List.length bytes);
              error_message := error_message s |})
      end
  end.

(** A session on an entry whose content is [data]: the decoder can supply
    the data and its position is the session's cursor. *)
Definition open_on (data : list byte) (s : ArchiveSession) : Prop :=
  entry_data (decoder s) = Some data ∧
  last_read_data_offset s = Z.of_nat (consumed (decoder s)).

(** The true content slice [[offset, offset + length)] of an entry. *)
Definition slice (data : list byte) (offset length : Z) : list byte :=
  take (Z.to_nat length) (drop (Z.to_nat offset) data).

(** A window that lies within an entry of content [data], with a buffer
    that has room for it. *)
Definition within_entry (data : list byte) (call : Z * Z * list byte) : Prop :=
  let '(offset, len, buffer) := call in
  (0 ≤ offset)%Z ∧ (0 ≤ len)%Z ∧
  (offset + len ≤ Z.of_nat (length data))%Z ∧
  (len ≤ Z.of_nat (length buffer))%Z.

(** A sequence of calls against the same session; each call brings its
    own buffer. *)
Fixpoint ReadDataSeq (s : ArchiveSession) (calls : list (Z * Z * list byte))
    : list (bool * list byte) :=
  match calls with
  | [] => []
  | (offset, length, buffer) :: calls' =>
      let r := ReadData s offset length buffer in
      (r.1.1, r.1.2) :: ReadDataSeq r.2 calls'
  end.

End WithConstants.

(** The session right after the target entry's header was reached. *)
Definition opened (data : option (list byte)) (error : string) : ArchiveSession :=
  {| decoder := {| entry_data := data; consumed := 0; lastError := error |};
     last_read_data_offset := 0;
     error_message := None |}.

End VolumeArchiveLibarchive.

(** ** The request dispatch of Volume (volume.cc, lines 148-455) *)

Definition kReadBufferSizeMax : Z := 512 * 1024.

(** [offset] is an [int64_t]; the sum the loop forms is reduced to the
    64-bit two's complement range. *)
Definition wrap_int64 (z : Z) : Z := (z + 2 ^ 63) `mod` 2 ^ 64 - 2 ^ 63.

(** The abstract class [VolumeArchive] (volume_archive.h, not among the
    sources), reduced to the members the modelled functions call.  An
    object is a value of type [A]; a member that mutates the object returns
    its next value.  [ReadData] takes the contents of the caller's buffer
    and returns the contents after the call; it is handed a [char*] and
    cannot change the size of the allocation ([ReadData_length]).
    [SetBufferAndSignal] and [ReadErrorSignal] are the two members of the
    archive's reader that the chunk notifications call. *)
Class VolumeArchive (A : Type) : Type := {
  request_id : A → string;
  error_message : A → string;
  ReadData : A → Z → Z → list byte → bool * list byte * A;
  Cleanup : A → bool * A;
  SetBufferAndSignal : A → list byte → Z → A;
  ReadErrorSignal : A → A;
  ReadData_length a offset len buffer :
    length (ReadData a offset len buffer).1.2 = length buffer
}.

(** What the Volume does to its collaborators during one call, oldest
    first: the messages it hands to [message_sender_], and the [ReadData]
    calls it makes on the archive of the request (with their result). *)
Inductive Event : Type :=
| ReadDataCall (offset length : Z) (result : bool)
| SendFileSystemError (file_system_id request_id message : string)
| SendReadFileDone (file_system_id request_id : string)
    (array_buffer : list byte) (has_more_data : bool)
| SendCloseFileDone (file_system_id request_id open_request_id : string).

(** The fields of a read-file request, as ReadFileCallback extracts them
    from the request dictionary. *)
Record ReadFileRequest : Type := {
  open_request_id : string;
  offset : Z;
  length_ : Z
}.

Section Volume.
Context {A : Type} `{!VolumeArchive A}.

(** The Volume object.  The registry owns the archives: a pointer into
    it is the key it was found under, and a mutation through that pointer
    is a store at that key.  The lock around the registry is taken and
    released within each function, so it is free at every call boundary
    of this sequential model. *)
Record Volume : Type := {
  file_system_id_ : string;
  worker_reads_in_progress_ : gmap string A
}.

Definition set_reads (v : Volume) (reads : gmap string A) : Volume :=
  {| file_system_id_ := file_system_id_ v;
     worker_reads_in_progress_ := reads |}.

(** Lines 448-455. *)
Definition GetVolumeArchive (v : Volume) (request_id : string) : option A :=
  worker_reads_in_progress_ v !! request_id.

(** Lines 174-195. *)
Definition ReadChunkDone (request_id : string) (array_buffer : list byte)
    (read_offset : Z) (v : Volume) : list Event * Volume :=
  match GetVolumeArchive v request_id with
  | None => ([], v)
  | Some volume_archive =>
      ([], set_reads v
             (<[request_id :=
                  SetBufferAndSignal volume_archive array_buffer read_offset]>
                (worker_reads_in_progress_ v)))
  end.

(** Lines 197-216. *)
Definition ReadChunkError (request_id : string) (v : Volume)
    : list Event * Volume :=
  match GetVolumeArchive v request_id with
  | None => ([], v)
  | Some volume_archive =>
      ([], set_reads v
             (<[request_id := ReadErrorSignal volume_archive]>
                (worker_reads_in_progress_ v)))
  end.

(** Lines 420-442.  The result is the returned flag, the messages sent
    and the Volume after the call; [None] is the PP_DCHECK on the archive's
    request id being registered. *)
Definition CleanupVolumeArchive (volume_archive : A)
    (post_cleanup_error : bool) (v : Volume)
    : option (bool * list Event * Volume) :=
  PP_DCHECK (bool_decide
    (is_Some (worker_reads_in_progress_ v !! request_id volume_archive)));;
  let v := set_reads v
             (delete (request_id volume_archive) (worker_reads_in_progress_ v)) in
  let cleanup := Cleanup volume_archive in
  let volume_archive := cleanup.2 in
  if negb cleanup.1 && post_cleanup_error then
    Some (false,
          [SendFileSystemError (file_system_id_ v) (request_id volume_archive)
             (error_message volume_archive)],
          v)
  else Some (true, [], v).

(** Lines 295-316.  [None] is the PP_DCHECK on the looked-up archive. *)
Definition CloseFileCallback (request_id_ open_request_id : string)
    (v : Volume) : option (list Event * Volume) :=
  volume_archive ← GetVolumeArchive v open_request_id;
  r ← CleanupVolumeArchive volume_archive false v;
  let '(ok, events, v) := r in
  if negb ok then
    Some (events ++
            [SendFileSystemError (file_system_id_ v) request_id_
               (error_message volume_archive)], v)
  else
    Some (events ++
            [SendCloseFileDone (file_system_id_ v) request_id_ open_request_id],
          v).

(** The loop of ReadFileCallback (lines 340-375) on the archive object
    behind [volume_archive].  The result is the events of the loop and the
    archive object after it. *)
Equations? ReadFileLoop (file_system_id request_id_ : string)
    (volume_archive : A) (offset len : Z) : list Event * A
    by wf (Z.to_nat len) lt :=
ReadFileLoop file_system_id request_id_ volume_archive offset len
    with decide (0 < len)%Z := {
  | right _ => ([], volume_archive)
  | left _ =>
      let has_more_data := bool_decide (kReadBufferSizeMax < len)%Z in
      let buffer_size :=
        if has_more_data then kReadBufferSizeMax else len in
      let array_buffer := replicate (Z.to_nat buffer_size) x00 in
      let read := ReadData volume_archive offset buffer_size array_buffer in
      if negb read.1.1 then
        ([ReadDataCall offset buffer_size false;
          SendFileSystemError file_system_id request_id_
            (error_message read.2)],
         read.2)
      else
        let rest :=
          ReadFileLoop file_system_id request_id_ read.2
            (wrap_int64 (offset + buffer_size)) (len - buffer_size) in
        (ReadDataCall offset buffer_size true
           :: SendReadFileDone file_system_id request_id_ read.1.2 has_more_data
           :: rest.1,
         rest.2) }.
Proof.
  subst buffer_size has_more_data. unfold kReadBufferSizeMax.
  case_bool_decide; lia.
Qed.

(** The shape of a run of the loop from [offset] with [len] bytes to go,
    ending with the archive object [final]. *)
Inductive loop_run (file_system_id request_id_ : string) (final : A)
    : Z → Z → list Event → Prop :=
| run_done offset len :
    (len ≤ 0)%Z →
    loop_run file_system_id request_id_ final offset len []
| run_fail offset len :
    (0 < len)%Z →
    loop_run file_system_id request_id_ final offset len
      [ReadDataCall offset (Z.min len kReadBufferSizeMax) false;
       SendFileSystemError file_system_id request_id_ (error_message final)]
| run_step offset len array_buffer events :
    (0 < len)%Z →
    Z.of_nat (length array_buffer) = Z.min len kReadBufferSizeMax →
    loop_run file_system_id request_id_ final
      (wrap_int64 (offset + Z.min len kReadBufferSizeMax))
      (len - Z.min len kReadBufferSizeMax) events →
    loop_run file_system_id request_id_ final offset len
      (ReadDataCall offset (Z.min len kReadBufferSizeMax) true
         :: SendReadFileDone file_system_id request_id_ array_buffer
              (bool_decide (kReadBufferSizeMax < len)%Z)
         :: events).

(** Lines 318-376.  [None] is the PP_DCHECK on the looked-up archive. *)
Definition ReadFileCallback (request_id_ : string) (request : ReadFileRequest)
    (v : Volume) : option (list Event * Volume) :=
  volume_archive ← GetVolumeArchive v (open_request_id request);
  let run :=
    ReadFileLoop (file_system_id_ v) request_id_ volume_archive
      (offset request) (length_ request) in
  Some (run.1,
        set_reads v
          (<[open_request_id request := run.2]> (worker_reads_in_progress_ v))).

End Volume.

Arguments Volume A : clear implicits.

(** ** The answers of the archive to a read-file request *)

Section ReadAnswers.
Context {A : Type} `{!VolumeArchive A}.

(** What the archive answers to the ReadData calls that lines 340-375 make
    for [len] bytes at [offset]: [None] when every call returns true, and
    otherwise the archive object as the first call that returns false
    leaves it.  Each call asks for min(len, 512 KB) bytes into a fresh
    buffer of that size, on the archive object the call before it left,
    at the offset where that one ended. *)
Equations? first_failed_read (volume_archive : A) (offset len : Z) : option A
    by wf (Z.to_nat len) lt :=
first_failed_read volume_archive offset len with decide (0 < len)%Z := {
  | right _ => None
  | left _ =>
      let buffer_size := Z.min len kReadBufferSizeMax in
      let read := ReadData volume_archive offset buffer_size
                    (replicate (Z.to_nat buffer_size) x00) in
      if read.1.1 then
        first_failed_read read.2 (wrap_int64 (offset + buffer_size))
          (len - buffer_size)
      else Some read.2 }.
Proof. subst buffer_size. unfold kReadBufferSizeMax. lia. Qed.

End ReadAnswers.

(** ** Reading a trace *)

(** The data chunks of a trace (buffer and has-more flag), its ReadData
    calls, and its error messages, each in the order of the trace. *)
Definition data_chunks (events : list Event) : list (list byte * bool) :=
  omap (λ e, match e with
             | SendReadFileDone _ _ array_buffer has_more_data =>
                 Some (array_buffer, has_more_data)
             | _ => None
             end) events.

Definition read_calls (events : list Event) : list (Z * Z * bool) :=
  omap (λ e, match e with
             | ReadDataCall offset len result => Some (offset, len, result)
             | _ => None
             end) events.

Definition error_messages (events : list Event) : list (string * string * string) :=
  omap (λ e, match e with
             | SendFileSystemError file_system_id request_id message =>
                 Some (file_system_id, request_id, message)
             | _ => None
             end) events.

Definition chunk_sizes (events : list Event) : list Z :=
  (λ chunk, Z.of_nat (length chunk.1)) <$> data_chunks events.


(** A scripted archive in the manner of the fakes of the unit tests: its
    next [fake_reads_ok] calls of [ReadData] succeed (leaving the buffer as
    it is) and the following ones fail; [Cleanup] returns
    [fake_cleanup_ok]. *)
Record FakeVolumeArchive : Type := {
  fake_request_id : string;
  fake_reads_ok : nat;
  fake_cleanup_ok : bool;
  fake_error_message : string
}.

#[global, refine] Instance FakeVolumeArchive_archive : VolumeArchive FakeVolumeArchive := {|
  request_id := fake_request_id;
  error_message := fake_error_message;
  ReadData a _ _ buffer :=
    match fake_reads_ok a with
    | O => (false, buffer, a)
    | S n => (true, buffer,
              {| fake_request_id := fake_request_id a;
                 fake_reads_ok := n;
                 fake_cleanup_ok := fake_cleanup_ok a;
                 fake_error_message := fake_error_message a |})
    end;
  Cleanup a := (fake_cleanup_ok a, a);
  SetBufferAndSignal a _ _ := a;
  ReadErrorSignal a := a
|}.
Proof. intros a _ _ buffer. by destruct (fake_reads_ok a). Defined.

(** A Volume that holds one scripted archive, opened by request "open-1". *)
Definition fake_archive (reads_ok : nat) (cleanup_ok : bool) : FakeVolumeArchive :=
  {| fake_request_id := "open-1";
     fake_reads_ok := reads_ok;
     fake_cleanup_ok := cleanup_ok;
     fake_error_message := "fake archive error" |}.

Definition fake_volume (volume_archive : FakeVolumeArchive) : Volume FakeVolumeArchive :=
  {| file_system_id_ := "fs";
     worker_reads_in_progress_ :=
       {[ fake_request_id volume_archive := volume_archive ]} |}.

Definition read_600000_at_10 : ReadFileRequest :=
  {| open_request_id := "open-1"; offset := 10; length_ := 600000 |}.

(** The archive data of the unit test, with its terminating zero byte, and
    the four reads of ReadSuccessForSmallLengths. *)
Definition kArchiveData : list byte :=
  list_byte_of_string
    "Fake data contained by the archive. Content is not important and it is used strictly for testing."
  ++ [x00].

Definition small_length_reads : list (Z * Z * list byte) :=
  let size := Z.of_nat (length kArchiveData) in
  [ (0, size, replicate (Z.to_nat size) x00);
    (0, size / 2, replicate (Z.to_nat (size / 2)) x00);
    (size / 2, size - size / 2, replicate (Z.to_nat (size - size / 2)) x00);
    (size / 3, size - size / 3, replicate (Z.to_nat (size - size / 3)) x00) ]%Z.

(** ** Paths as lists of segments

    A segment is a name between delimiters; the path of an entry is its
    segments joined by the delimiter. *)
Definition plain_segment (s : string) : Prop :=
  s ≠ "" ∧ index 0 kPathDelimiter s = None.

Fixpoint join_path (segments : list string) : string :=
  match segments with
  | [] => ""
  | [s] => s
  | s :: rest => s +:+ kPathDelimiter +:+ join_path rest
  end.

(** The attributes CreateEntry stores for every entry. *)
Definition leaf_attributes (node : Var) : Var * Var * Var * Var :=
  (Get node "name", Get node "isDirectory", Get node "size",
   Get node "modificationTime").

(** The node ConstructMetadata creates for a first segment that is new: the
    entry itself, or a directory of size 0 that holds the node of the next
    segment. *)
Fixpoint fresh_branch (name : string) (rest : list string) (size : Z)
    (is_directory : bool) (modification_time : Z) : Var :=
  match rest with
  | [] => CreateEntry name is_directory size modification_time
  | next :: rest' =>
      Set_ (CreateEntry name true 0 modification_time) "entries"
        (VDict {[next := fresh_branch next rest' size is_directory
                           modification_time]})
  end.

(** ** The callbacks that create a session (volume.cc, lines 218-293 and
    378-418) *)

(** One archive header: path name, size, directory flag, modification
    time. *)
Definition Header : Type := string * Z * bool * Z.

(** The members of [VolumeArchive] and of its reader that the session
    creating callbacks call, besides those of the class above.
    [reader_Open request_id archive_size] tells whether [Open] of a new
    [VolumeReaderJavaScriptStream] returns [ARCHIVE_OK];
    [NewVolumeArchive] is the constructor.  [GetNextHeader] returns its flag,
    the header it stored through its pointers ([None] for a null
    [path_name], the end of the archive) and the next value of the object.
    An archive has finitely many headers: [headers_left] bounds the calls
    that still return one.  The request id of an archive is the one it was
    constructed with. *)
Class VolumeArchiveHeaders (A : Type) `{!VolumeArchive A} : Type := {
  reader_Open : string → Z → bool;
  NewVolumeArchive : string → Z → A;
  Init : A → bool * A;
  GetNextHeader : A → bool * option Header * A;
  headers_left : A → nat;
  NewVolumeArchive_request_id request_id_ archive_size :
    request_id (NewVolumeArchive request_id_ archive_size) = request_id_;
  Init_request_id a : request_id (Init a).2 = request_id a;
  GetNextHeader_request_id a : request_id (GetNextHeader a).2 = request_id a;
  ReadData_request_id a offset len buffer :
    request_id (ReadData a offset len buffer).2 = request_id a;
  Cleanup_request_id a : request_id (Cleanup a).2 = request_id a;
  GetNextHeader_progress a :
    (GetNextHeader a).1.2 ≠ None →
    headers_left (GetNextHeader a).2 < headers_left a
}.

(** The messages of the session creating callbacks: those of [Event], and
    the two completion messages. *)
Inductive Reply : Type :=
| Sent (event : Event)
| SendReadMetadataDone (file_system_id request_id : string) (metadata : Var)
| SendOpenFileDone (file_system_id request_id : string).

Definition inspect {X : Type} (x : X) : {y : X | x = y} := exist _ x eq_refl.

Section SessionCallbacks.
Context {A : Type} `{!VolumeArchive A} `{!VolumeArchiveHeaders A}.

(** Lines 378-418.  The result is the archive ([None] for NULL), the
    messages sent and the Volume after the call; the outer [None] is the
    PP_DCHECK on the request id being new. *)
Definition CreateVolumeArchive (request_id_ : string) (archive_size : Z)
    (v : Volume A) : option (option A * list Event * Volume A) :=
  if negb (reader_Open request_id_ archive_size) then
    Some (None,
          [SendFileSystemError (file_system_id_ v) request_id_
             "Couldn't open volume reader."],
          v)
  else
    let volume_archive := NewVolumeArchive request_id_ archive_size in
    PP_DCHECK (bool_decide (worker_reads_in_progress_ v !! request_id_ = None));;
    let v := set_reads v
               (<[request_id_ := volume_archive]> (worker_reads_in_progress_ v)) in
    let init := Init volume_archive in
    let volume_archive := init.2 in
    let v := set_reads v
               (<[request_id_ := volume_archive]> (worker_reads_in_progress_ v)) in
    if negb init.1 then
      cleanup ← CleanupVolumeArchive volume_archive false v;
      Some (None,
            SendFileSystemError (file_system_id_ v) request_id_
              (error_message volume_archive) :: cleanup.1.2,
            cleanup.2)
    else Some (Some volume_archive, [], v).

(** The loop of ReadMetadataCallback (lines 232-246).  The result is the
    archive object after the loop and the tree, or [None] in its place when
    GetNextHeader failed; the outer [None] is a failed assertion of
    ConstructMetadata. *)
Equations? ReadMetadataLoop (volume_archive : A) (metadata : Var)
    : option (A * option Var) by wf (headers_left volume_archive) lt :=
ReadMetadataLoop volume_archive metadata
    with inspect (GetNextHeader volume_archive) := {
  | exist _ (false, _, volume_archive') _ => Some (volume_archive', None)
  | exist _ (true, None, volume_archive') _ =>
      Some (volume_archive', Some metadata)
  | exist _ (true, Some (path_name, size, is_directory, modification_time),
             volume_archive') Hnext =>
      metadata' ←
        ConstructMetadata path_name size is_directory modification_time metadata;
      ReadMetadataLoop volume_archive' metadata' }.
Proof.
  pose proof (GetNextHeader_progress volume_archive) as Hprogress.
  rewrite Hnext in Hprogress. by apply Hprogress.
Qed.

(** Lines 218-256. *)
Definition ReadMetadataCallback (request_id_ : string) (archive_size : Z)
    (v : Volume A) : option (list Reply * Volume A) :=
  created ← CreateVolumeArchive request_id_ archive_size v;
  let v := created.2 in
  match created.1.1 with
  | None => Some (Sent <$> created.1.2, v)
  | Some volume_archive =>
      loop ← ReadMetadataLoop volume_archive (CreateEntry kPathDelimiter true 0 0);
      let volume_archive := loop.1 in
      let v := set_reads v
                 (<[request_id_ := volume_archive]> (worker_reads_in_progress_ v)) in
      match loop.2 with
      | None =>
          cleanup ← CleanupVolumeArchive volume_archive false v;
          Some (Sent <$> (created.1.2 ++
                  SendFileSystemError (file_system_id_ v) request_id_
                    (error_message volume_archive) :: cleanup.1.2),
                cleanup.2)
      | Some metadata =>
          cleanup ← CleanupVolumeArchive volume_archive true v;
          if negb cleanup.1.1 then
            Some (Sent <$> (created.1.2 ++ cleanup.1.2), cleanup.2)
          else
            Some ((Sent <$> (created.1.2 ++ cleanup.1.2)) ++
                    [SendReadMetadataDone (file_system_id_ v) request_id_ metadata],
                  cleanup.2)
      end
  end.

(** The loop of OpenFileCallback (lines 270-289).  The result is the
    archive object after the loop and whether the file was reached (false:
    GetNextHeader failed); [None] is the PP_DCHECK at the end of the
    archive. *)
Equations? OpenFileLoop (volume_archive : A) (file_path : string)
    : option (A * bool) by wf (headers_left volume_archive) lt :=
OpenFileLoop volume_archive file_path
    with inspect (GetNextHeader volume_archive) := {
  | exist _ (false, _, volume_archive') _ => Some (volume_archive', false)
  | exist _ (true, None, volume_archive') _ => None
  | exist _ (true, Some (path_name, _, _, _), volume_archive') Hnext =>
      if String.eqb file_path (kPathDelimiter +:+ path_name)
      then Some (volume_archive', true)
      else OpenFileLoop volume_archive' file_path }.
Proof.
  pose proof (GetNextHeader_progress volume_archive) as Hprogress.
  rewrite Hnext in Hprogress. by apply Hprogress.
Qed.

(** Lines 258-293. *)
Definition OpenFileCallback (request_id_ file_path : string) (archive_size : Z)
    (v : Volume A) : option (list Reply * Volume A) :=
  created ← CreateVolumeArchive request_id_ archive_size v;
  let v := created.2 in
  match created.1.1 with
  | None => Some (Sent <$> created.1.2, v)
  | Some volume_archive =>
      loop ← OpenFileLoop volume_archive file_path;
      let volume_archive := loop.1 in
      let v := set_reads v
                 (<[request_id_ := volume_archive]> (worker_reads_in_progress_ v)) in
      if negb loop.2 then
        cleanup ← CleanupVolumeArchive volume_archive false v;
        Some (Sent <$> (created.1.2 ++
                SendFileSystemError (file_system_id_ v) request_id_
                  (error_message volume_archive) :: cleanup.1.2),
              cleanup.2)
      else
        Some ((Sent <$> created.1.2) ++
                [SendOpenFileDone (file_system_id_ v) request_id_], v)
  end.

(** The headers GetNextHeader returns before the archive ends or it fails:
    the flag tells which (true: the end), and the archive is the object
    after the last call. *)
Equations? remaining_headers (volume_archive : A) : bool * list Header * A
    by wf (headers_left volume_archive) lt :=
remaining_headers volume_archive
    with inspect (GetNextHeader volume_archive) := {
  | exist _ (false, _, volume_archive') _ => (false, [], volume_archive')
  | exist _ (true, None, volume_archive') _ => (true, [], volume_archive')
  | exist _ (true, Some header, volume_archive') Hnext =>
      let rest := remaining_headers volume_archive' in
      (rest.1.1, header :: rest.1.2, rest.2) }.
Proof.
  pose proof (GetNextHeader_progress volume_archive) as Hprogress.
  rewrite Hnext in Hprogress. by apply Hprogress.
Qed.

End SessionCallbacks.

(** An event of a read-file request: a ReadData call or a buffer of at
    most 512 KB, or a message for the read request. *)
Definition read_file_event (file_system_id request_id_ : string) (e : Event)
    : Prop :=
  match e with
  | ReadDataCall _ len _ => (0 < len ≤ kReadBufferSizeMax)%Z
  | SendReadFileDone fs id array_buffer _ =>
      fs = file_system_id ∧ id = request_id_ ∧
      (0 < Z.of_nat (length array_buffer) ≤ kReadBufferSizeMax)%Z
  | SendFileSystemError fs id _ => fs = file_system_id ∧ id = request_id_
  | SendCloseFileDone _ _ _ => False
  end.

(** ** An archive that plays back a list of headers

    [Init] returns [scripted_init_ok]; [GetNextHeader] returns the headers
    of [scripted_headers] in turn and then [scripted_end_ok] with no header;
    [ReadData] succeeds and leaves the buffer as it is; [Cleanup] returns
    [scripted_cleanup_ok]. *)
Record ScriptedArchive : Type := {
  scripted_request_id : string;
  scripted_init_ok : bool;
  scripted_headers : list Header;
  scripted_end_ok : bool;
  scripted_cleanup_ok : bool;
  scripted_error_message : string
}.

Definition scripted_with (a : ScriptedArchive) (request_id_ : string)
    (headers : list Header) : ScriptedArchive :=
  {| scripted_request_id := request_id_;
     scripted_init_ok := scripted_init_ok a;
     scripted_headers := headers;
     scripted_end_ok := scripted_end_ok a;
     scripted_cleanup_ok := scripted_cleanup_ok a;
     scripted_error_message := scripted_error_message a |}.

Definition scripted_next (a : ScriptedArchive)
    : bool * option Header * ScriptedArchive :=
  match scripted_headers a with
  | [] => (scripted_end_ok a, None, a)
  | header :: rest =>
      (true, Some header, scripted_with a (scripted_request_id a) rest)
  end.

#[global, refine] Instance ScriptedArchive_archive : VolumeArchive ScriptedArchive := {|
  request_id := scripted_request_id;
  error_message := scripted_error_message;
  ReadData a _ _ buffer := (true, buffer, a);
  Cleanup a := (scripted_cleanup_ok a, a);
  SetBufferAndSignal a _ _ := a;
  ReadErrorSignal a := a
|}.
Proof. done. Defined.

(** The archive of "a/b.txt" (5 bytes) followed by its directory "a". *)
Definition file_then_directory : ScriptedArchive :=
  {| scripted_request_id := "";
     scripted_init_ok := true;
     scripted_headers := [("a/b.txt", 5, false, 7); ("a", 0, true, 9)]%Z;
     scripted_end_ok := true;
     scripted_cleanup_ok := true;
     scripted_error_message := "scripted archive error" |}.

#[global, refine] Instance file_then_directory_session
    : VolumeArchiveHeaders ScriptedArchive := {|
  reader_Open _ _ := true;
  NewVolumeArchive request_id_ _ :=
    scripted_with file_then_directory request_id_
      (scripted_headers file_then_directory);
  Init a := (scripted_init_ok a, a);
  GetNextHeader := scripted_next;
  headers_left a := length (scripted_headers a)
|}.
Proof.
  - done.
  - done.
  - intros a. unfold scripted_next. by destruct (scripted_headers a).
  - done.
  - done.
  - intros a. unfold scripted_next.
    destruct (scripted_headers a); [done|]. intros _. cbn. lia.
Defined.

Definition no_sessions : Volume ScriptedArchive :=
  {| file_system_id_ := "fs"; worker_reads_in_progress_ := ∅ |}.

(** The Volume after "/a/b.txt" was opened by request "open-1". *)
Definition opened_b : Volume ScriptedArchive :=
  set_reads no_sessions
    {["open-1" := scripted_with file_then_directory "open-1" [("a", 0, true, 9)]%Z]}.

Definition read_5_at_0 : ReadFileRequest :=
  {| open_request_id := "open-1"; offset := 0; length_ := 5 |}.

(** * Properties *)

(** ** Windowed ReadData *)

Module ReadDataProofs.
Import VolumeArchiveLibarchive.
Section WithConstants.
Variable kMaximumDataChunkSize : Z.
Variable kArchiveReadDataErrorPrefix : string.

Lemma decodeBytes_eq (d : Decoder) (n : Z) :
  decodeBytes kMaximumDataChunkSize d n =
    if decide (n ≤ 0)%Z then Some ([], d)
    else match readEntryData d (Z.min n kMaximumDataChunkSize) with
         | None => None
         | Some (bytes, d') =>
             if decide (bytes = []) then Some ([], d')
             else match decodeBytes kMaximumDataChunkSize d'
                          (n - Z.of_nat (length bytes)) with
                  | None => None
                  | Some (rest, d'') => Some (bytes ++ rest, d'')
                  end
         end.
Proof.
  simp decodeBytes.
  destruct (decide (n ≤ 0)%Z) as [Hn|Hn]; simp decodeBytes; [done|].
  destruct (readEntryData d _) as [[bytes d']|]; simp decodeBytes; [|done].
  destruct (decide (bytes = [])); simp decodeBytes; done.
Qed.

(** When the chunk pipeline supplies no data, the first decode call
    fails. *)
Lemma decodeBytes_no_data (d : Decoder) (n : Z) :
  entry_data d = None →
  decodeBytes kMaximumDataChunkSize d n =
    if decide (n ≤ 0)%Z then Some ([], d) else None.
Proof.
  intros Hd. rewrite decodeBytes_eq. unfold readEntryData.
  by rewrite Hd.
Qed.

Lemma take_length_take {X} (m : nat) (l : list X) :
  take (length (take m l)) l = take m l.
Proof.
  rewrite length_take. destruct (decide (m ≤ length l)%nat).
  - by rewrite Nat.min_l.
  - rewrite Nat.min_r by lia. rewrite firstn_all. by rewrite take_ge by lia.
Qed.

Lemma drop_length_take {X} (m : nat) (l : list X) :
  drop (length (take m l)) l = drop m l.
Proof.
  rewrite length_take. destruct (decide (m ≤ length l)%nat).
  - by rewrite Nat.min_l.
  - rewrite Nat.min_r by lia. by rewrite !drop_ge by lia.
Qed.

Section WithPositiveChunk.
Hypothesis chunk_positive : (0 < kMaximumDataChunkSize)%Z.

(** With data available, the bounded decode calls together deliver the
    next [n] bytes of the entry, or all that is left of it. *)
Lemma decodeBytes_data (data : list byte) (n : Z) :
  ∀ d, entry_data d = Some data →
    decodeBytes kMaximumDataChunkSize d n =
      let bytes := take (Z.to_nat n) (drop (consumed d) data) in
      Some (bytes, {| entry_data := Some data;
                      consumed := consumed d + length bytes;
                      lastError := lastError d |}).
Proof.
  remember (Z.to_nat n) as k eqn:Hk. revert n Hk.
  induction k as [k IH] using lt_wf_ind. intros n Hk d Hd.
  rewrite decodeBytes_eq. destruct (decide (n ≤ 0)%Z) as [Hn|Hn].
  { replace k with 0%nat by lia. destruct d; simpl in *.
    rewrite Hd, Nat.add_0_r. done. }
  unfold readEntryData. rewrite Hd.
  set (m := Z.to_nat (n `min` kMaximumDataChunkSize)).
  set (rest := drop (consumed d) data).
  assert (0 < m ≤ k)%nat as Hm by lia.
  destruct (decide (take m rest = [])) as [Hnil|Hcons].
  { assert (rest = []) as Hrest.
    { destruct rest; [done|]. destruct m; [lia|done]. }
    cbn zeta. fold rest. rewrite Hnil, Hrest, take_nil. done. }
  cbn zeta. fold rest.
  assert (length (take m rest) ≠ 0)%nat as Hlen
    by (destruct (take m rest); done).
  rewrite (IH (Z.to_nat (n - Z.of_nat (length (take m rest))))) ; cycle 1.
  { lia. }
  { done. }
  { done. }
  cbn [consumed lastError]. cbn zeta.
  assert (length (take m rest) ≤ m)%nat as Hle
    by (rewrite length_take; lia).
  assert (take m rest ++
            take (Z.to_nat (n - Z.of_nat (length (take m rest))))
              (drop (consumed d + length (take m rest)) data)
          = take k rest) as Heq.
  { rewrite <- drop_drop. fold rest.
    rewrite <- (take_length_take m rest) at 1.
    rewrite take_take_drop. f_equal. lia. }
  rewrite <- Heq, length_app. do 3 f_equal. lia.
Qed.

(** One call on a session that sits on an entry with content [data]:
    it succeeds, stores the slice (as far as the entry goes) and leaves
    the session on the entry, with its cursor after the bytes read. *)
Lemma ReadData_open (data : list byte) (s : ArchiveSession)
    (offset len : Z) (buffer : list byte) :
  open_on data s → (0 ≤ offset)%Z →
  ∃ s', ReadData kMaximumDataChunkSize kArchiveReadDataErrorPrefix
          s offset len buffer
        = (true, store (slice data offset len) buffer, s')
      ∧ open_on data s'
      ∧ error_message s' = error_message s.
Proof.
  intros [Hdata Hcur] Hoff. unfold ReadData.
  set (s1 := if decide (offset < last_read_data_offset s)%Z then _ else s).
  assert (open_on data s1 ∧ (last_read_data_offset s1 ≤ offset)%Z
          ∧ error_message s1 = error_message s)
    as ([Hdata1 Hcur1] & Hle & Herr).
  { subst s1. destruct (decide _); [|split; [done|split; [lia|done]]].
    split; [split|split]; simpl; [done|done|lia|done]. }
  clearbody s1. clear Hdata Hcur.
  rewrite (decodeBytes_data data) by done. cbv beta iota zeta.
  rewrite (decodeBytes_data data) by done. cbv beta iota zeta.
  cbn [consumed last_read_data_offset decoder error_message].
  set (skipped := take _ (drop (consumed (decoder s1)) data)).
  assert (drop (consumed (decoder s1) + length skipped) data
          = drop (Z.to_nat offset) data) as Hdrop.
  { subst skipped. rewrite <- drop_drop, drop_length_take, drop_drop.
    f_equal. lia. }
  rewrite Hdrop. fold (slice data offset len).
  eexists. split; [reflexivity|].
  split; [split|]; simpl; [done|lia|done].
Qed.

(** C1.  On an open entry, every sequence of ReadData calls whose
    windows lie within the entry returns true at each call and leaves in
    each buffer exactly the content slice [[offset, offset + length)],
    followed by the bytes the buffer had after the window.  The windows
    are in any order: a call behind the cursor restarts the entry. *)
Theorem ReadData_sequence_correct (data : list byte) (s : ArchiveSession)
    (calls : list (Z * Z * list byte)) :
  open_on data s →
  Forall (within_entry data) calls →
  ReadDataSeq kMaximumDataChunkSize kArchiveReadDataErrorPrefix s calls =
    map (λ '(offset, len, buffer),
           (true, slice data offset len ++ drop (Z.to_nat len) buffer))
        calls.
Proof.
  intros Hopen Hcalls. revert s Hopen.
  induction Hcalls as [|[[offset len] buffer] calls Hin _ IH];
    intros s Hopen; [done|].
  destruct Hin as (Hoff & Hlen & Hend & Hbuf).
  destruct (ReadData_open data s offset len buffer Hopen Hoff)
    as (s' & Hread & Hopen' & _).
  cbn [ReadDataSeq map]. rewrite Hread. cbn [fst snd].
  rewrite (IH s' Hopen'). do 3 f_equal.
  assert (length (slice data offset len) = Z.to_nat len) as Hslice.
  { unfold slice. rewrite length_take, length_drop. lia. }
  unfold store. rewrite Hslice, take_ge by lia. done.
Qed.

(** C2.  A request from offset 0 for more bytes than the entry has
    returns true, stores the whole entry at the start of the buffer,
    leaves every byte of the buffer from index entrySize on as it was,
    and records no error. *)
Theorem ReadData_longer_than_entry (data : list byte) (s : ArchiveSession)
    (len : Z) (buffer : list byte) :
  open_on data s →
  (Z.of_nat (length data) < len)%Z →
  (len ≤ Z.of_nat (length buffer))%Z →
  ∃ buffer' s',
    ReadData kMaximumDataChunkSize kArchiveReadDataErrorPrefix
      s 0 len buffer = (true, buffer', s')
    ∧ buffer' = data ++ drop (length data) buffer
    ∧ (∀ i, (length data ≤ i)%nat → buffer' !! i = buffer !! i)
    ∧ error_message s' = error_message s.
Proof.
  intros Hopen Hlen Hbuf.
  destruct (ReadData_open data s 0 len buffer Hopen) as (s' & Hread & _ & Herr);
    [lia|].
  assert (slice data 0 len = data) as Hslice.
  { unfold slice. rewrite drop_0, take_ge by lia. done. }
  rewrite Hslice in Hread. unfold store in Hread.
  rewrite take_ge in Hread by lia.
  eexists _, s'. split; [exact Hread|]. split; [done|]. split; [|done].
  intros i Hi. rewrite lookup_app_r by done. rewrite lookup_drop.
  f_equal. lia.
Qed.
End WithPositiveChunk.

(** C3.  When the chunk pipeline supplies no data, a request for bytes at
    any offset returns false and sets the session's error message to the
    read-data prefix followed by the decoder's error string; the message
    does not depend on the offset. *)
Theorem ReadData_no_data (s : ArchiveSession) (offset len : Z)
    (buffer : list byte) :
  entry_data (decoder s) = None →
  (0 < len)%Z →
  ∃ s',
    ReadData kMaximumDataChunkSize kArchiveReadDataErrorPrefix
      s offset len buffer = (false, buffer, s')
    ∧ error_message s' =
        Some (kArchiveReadDataErrorPrefix +:+ lastError (decoder s)).
Proof.
  intros Hnone Hlen. unfold ReadData.
  set (s1 := if decide (offset < last_read_data_offset s)%Z then _ else s).
  assert (entry_data (decoder s1) = None
          ∧ lastError (decoder s1) = lastError (decoder s)) as [Hnone1 Herr1].
  { subst s1. by destruct (decide _). }
  clearbody s1. rewrite decodeBytes_no_data by done.
  destruct (decide (offset - last_read_data_offset s1 ≤ 0)%Z).
  - rewrite decodeBytes_no_data by done.
    destruct (decide (len ≤ 0)%Z); [lia|].
    eexists. split; [reflexivity|]. simpl. by rewrite Herr1.
  - eexists. split; [reflexivity|]. simpl. by rewrite Herr1.
Qed.

End WithConstants.
End ReadDataProofs.

Lemma ReadData_sequence_correct_witness :
  VolumeArchiveLibarchive.ReadDataSeq 16 "Read data: "
    (VolumeArchiveLibarchive.opened (Some kArchiveData) "archive error")
    small_length_reads
  = map (λ '(offset, len, buffer),
           (true, VolumeArchiveLibarchive.slice kArchiveData offset len
                    ++ drop (Z.to_nat len) buffer))
        small_length_reads.
Proof.
  apply (ReadDataProofs.ReadData_sequence_correct 16 "Read data: ").
  - lia.
  - split; reflexivity.
  - repeat constructor; by vm_compute.
Defined.

Lemma ReadData_longer_than_entry_witness :
  ∃ buffer' s',
    VolumeArchiveLibarchive.ReadData 16 "Read data: "
      (VolumeArchiveLibarchive.opened (Some kArchiveData) "archive error")
      0 (2 * Z.of_nat (length kArchiveData))
      (replicate (2 * length kArchiveData) x00) = (true, buffer', s')
    ∧ buffer' = kArchiveData
                ++ drop (length kArchiveData)
                     (replicate (2 * length kArchiveData) x00)
    ∧ (∀ i, (length kArchiveData ≤ i)%nat →
         buffer' !! i = replicate (2 * length kArchiveData) x00 !! i)
    ∧ VolumeArchiveLibarchive.error_message s' = None.
Proof.
  apply (ReadDataProofs.ReadData_longer_than_entry 16 "Read data: ").
  - lia.
  - split; reflexivity.
  - by vm_compute.
  - by vm_compute.
Defined.

Lemma ReadData_no_data_witness :
  ∃ s',
    VolumeArchiveLibarchive.ReadData 16 "Read data: "
      (VolumeArchiveLibarchive.opened None "archive error")
      10 10 (replicate 10 x00) = (false, replicate 10 x00, s')
    ∧ VolumeArchiveLibarchive.error_message s'
      = Some ("Read data: " +:+ "archive error").
Proof.
  apply (ReadDataProofs.ReadData_no_data 16 "Read data: ").
  - reflexivity.
  - lia.
Defined.

(** The two read-failure tests: the same message at offset 0 and at
    offset 10. *)
Example ReadData_no_data_both_offsets :
  (λ offset,
     let r := VolumeArchiveLibarchive.ReadData 16 "Read data: "
                (VolumeArchiveLibarchive.opened None "archive error")
                offset 10 (replicate 10 x00) in
     (r.1.1, VolumeArchiveLibarchive.error_message r.2)) <$> [0; 10]%Z
  = [(false, Some "Read data: archive error");
     (false, Some "Read data: archive error")].
Proof. vm_compute. reflexivity. Qed.

(** ** Request dispatch *)

Section VolumeProofs.
Context {A : Type} `{!VolumeArchive A}.

Lemma ReadFileLoop_eq (file_system_id request_id_ : string)
    (volume_archive : A) (offset len : Z) :
  ReadFileLoop file_system_id request_id_ volume_archive offset len =
    if decide (0 < len)%Z then
      let buffer_size := Z.min len kReadBufferSizeMax in
      let read := ReadData volume_archive offset buffer_size
                    (replicate (Z.to_nat buffer_size) x00) in
      if negb read.1.1 then
        ([ReadDataCall offset buffer_size false;
          SendFileSystemError file_system_id request_id_ (error_message read.2)],
         read.2)
      else
        let rest := ReadFileLoop file_system_id request_id_ read.2
                      (wrap_int64 (offset + buffer_size)) (len - buffer_size) in
        (ReadDataCall offset buffer_size true
           :: SendReadFileDone file_system_id request_id_ read.1.2
                (bool_decide (kReadBufferSizeMax < len)%Z)
           :: rest.1,
         rest.2)
    else ([], volume_archive).
Proof.
  simp ReadFileLoop.
  destruct (decide (0 < len)%Z) as [Hlen|Hlen]; simp ReadFileLoop; [|done].
  cbv zeta.
  replace (if bool_decide (kReadBufferSizeMax < len)%Z
           then kReadBufferSizeMax else len)
    with (Z.min len kReadBufferSizeMax) by (case_bool_decide; lia).
  done.
Qed.

Lemma ReadFileLoop_run (file_system_id request_id_ : string)
    (volume_archive : A) (offset len : Z) :
  let run := ReadFileLoop file_system_id request_id_ volume_archive offset len in
  loop_run file_system_id request_id_ run.2 offset len run.1.
Proof.
  remember (Z.to_nat len) as k eqn:Hk. revert volume_archive offset len Hk.
  induction k as [k IH] using lt_wf_ind. intros a offset len Hk.
  rewrite ReadFileLoop_eq. cbv zeta.
  destruct (decide (0 < len)%Z) as [Hlen|Hlen]; [|constructor; lia].
  set (n := Z.min len kReadBufferSizeMax).
  assert (0 < n)%Z by (unfold n, kReadBufferSizeMax; lia).
  destruct (ReadData a offset n _) as [[ok buffer] a'] eqn:Hread.
  cbn [fst snd]. destruct ok; cbn [negb fst snd].
  - apply run_step; [done| |].
    + pose proof (ReadData_length a offset n (replicate (Z.to_nat n) x00)) as Hl.
      rewrite Hread, length_replicate in Hl. cbn [fst snd] in Hl. lia.
    + apply (IH (Z.to_nat (len - n))); [lia|done].
  - by apply run_fail.
Qed.


Lemma loop_run_nonpositive (file_system_id request_id_ : string) (final : A)
    (offset len : Z) (events : list Event) :
  loop_run file_system_id request_id_ final offset len events →
  (len ≤ 0)%Z → events = [].
Proof. destruct 1; [done|lia|lia]. Qed.



Lemma set_reads_insert_same (v : Volume A) (key : string) (a : A) :
  worker_reads_in_progress_ v !! key = Some a →
  set_reads v (<[key := a]> (worker_reads_in_progress_ v)) = v.
Proof. intros Hkey. destruct v as [fs reads]. unfold set_reads. cbn in *.
  by rewrite insert_id. Qed.

Lemma first_failed_read_eq (volume_archive : A) (offset len : Z) :
  first_failed_read volume_archive offset len =
    if decide (0 < len)%Z then
      let buffer_size := Z.min len kReadBufferSizeMax in
      let read := ReadData volume_archive offset buffer_size
                    (replicate (Z.to_nat buffer_size) x00) in
      if read.1.1 then
        first_failed_read read.2 (wrap_int64 (offset + buffer_size))
          (len - buffer_size)
      else Some read.2
    else None.
Proof.
  simp first_failed_read.
  destruct (decide (0 < len)%Z); by simp first_failed_read.
Qed.

(** A ReadData call that returns false on the first chunk is the first
    failed read of the request. *)
Lemma first_failed_read_first_call (volume_archive : A) (offset len : Z) :
  (0 < len)%Z →
  let read := ReadData volume_archive offset (Z.min len kReadBufferSizeMax)
                (replicate (Z.to_nat (Z.min len kReadBufferSizeMax)) x00) in
  read.1.1 = false →
  first_failed_read volume_archive offset len = Some read.2.
Proof.
  intros Hlen read Hfalse. rewrite first_failed_read_eq, decide_True by done.
  cbv zeta. fold read. by rewrite Hfalse.
Qed.

(** An archive whose ReadData never returns false has no failed read. *)
Lemma first_failed_read_never (healthy : A → Prop) :
  (∀ a offset len buffer,
     healthy a →
     (ReadData a offset len buffer).1.1 = true ∧
     healthy (ReadData a offset len buffer).2) →
  ∀ volume_archive offset len,
    healthy volume_archive →
    first_failed_read volume_archive offset len = None.
Proof.
  intros Hhealthy a offset len. remember (Z.to_nat len) as k eqn:Hk.
  revert a offset len Hk. induction k as [k IH] using lt_wf_ind.
  intros a offset len Hk Ha. rewrite first_failed_read_eq.
  destruct (decide (0 < len)%Z) as [Hlen|Hlen]; [|done]. cbv zeta.
  set (n := Z.min len kReadBufferSizeMax).
  assert (0 < n)%Z by (unfold n, kReadBufferSizeMax; lia).
  destruct (Hhealthy a offset n (replicate (Z.to_nat n) x00) Ha) as [-> Hnext].
  apply (IH (Z.to_nat (len - n))); [lia|done|done].
Qed.


(** When a ReadData call of the request returns false, the loop ends with
    that call and one error message carrying the error message of the
    archive as the call left it; all calls before it succeeded, nothing
    before it is an error message, and the loop hands back that archive. *)
Lemma ReadFileLoop_failed_read (file_system_id request_id_ : string)
    (volume_archive failed_archive : A) (offset len : Z) :
  first_failed_read volume_archive offset len = Some failed_archive →
  ∃ before offset' len',
    ReadFileLoop file_system_id request_id_ volume_archive offset len
    = (before ++
         [ReadDataCall offset' len' false;
          SendFileSystemError file_system_id request_id_
            (error_message failed_archive)],
       failed_archive) ∧
    Forall (λ call, call.2 = true) (read_calls before) ∧
    error_messages before = [].
Proof.
  remember (Z.to_nat len) as k eqn:Hk. revert volume_archive offset len Hk.
  induction k as [k IH] using lt_wf_ind. intros a offset len Hk.
  rewrite first_failed_read_eq, ReadFileLoop_eq. cbv zeta.
  destruct (decide (0 < len)%Z) as [Hlen|Hlen]; [|done].
  set (n := Z.min len kReadBufferSizeMax).
  assert (0 < n)%Z by (unfold n, kReadBufferSizeMax; lia).
  destruct (ReadData a offset n _) as [[ok buffer] a']. cbn [fst snd].
  destruct ok; cbn [negb fst snd].
  - intros Hfailed.
    destruct (IH (Z.to_nat (len - n)) ltac:(lia) a' (wrap_int64 (offset + n))
                (len - n)%Z eq_refl Hfailed)
      as (before & offset' & len' & -> & Hcalls & Herrors).
    eexists (_ :: _ :: before), offset', len'. cbn [fst snd].
    split; [reflexivity|]. split; [by constructor|done].
  - intros [= <-]. exists [], offset, n. done.
Qed.


(** C7.  If a ReadData call of a ReadFile request fails, the messages of
    the request end with one error message, sent for the read request's
    identifier and carrying the error message of the archive as the failed
    call left it; it is the only error message, every ReadData call before
    the failed one succeeded, and no data chunk and no ReadData call
    follows the failed one.  The session is still registered under the
    open request's identifier, holding that archive, and the registry has
    the keys it had. *)
Theorem ReadFileCallback_read_failure (v : Volume A) (request_id_ : string)
    (request : ReadFileRequest) (volume_archive failed_archive : A) :
  GetVolumeArchive v (open_request_id request) = Some volume_archive →
  first_failed_read volume_archive (offset request) (length_ request)
    = Some failed_archive →
  ∃ events v' before offset' len',
    ReadFileCallback request_id_ request v = Some (events, v') ∧
    events = before ++
      [ReadDataCall offset' len' false;
       SendFileSystemError (file_system_id_ v) request_id_
         (error_message failed_archive)] ∧
    Forall (λ call, call.2 = true) (read_calls before) ∧
    error_messages events
      = [(file_system_id_ v, request_id_, error_message failed_archive)] ∧
    data_chunks events = data_chunks before ∧
    GetVolumeArchive v' (open_request_id request) = Some failed_archive ∧
    dom (worker_reads_in_progress_ v') = dom (worker_reads_in_progress_ v).
Proof.
  intros Hget Hfailed. unfold ReadFileCallback. rewrite Hget.
  cbn [mbind option_bind].
  destruct (ReadFileLoop_failed_read (file_system_id_ v) request_id_ _ _ _ _
              Hfailed) as (before & offset' & len' & -> & Hcalls & Herrors).
  eexists _, _, before, offset', len'. cbn [fst snd].
  split; [reflexivity|]. split; [reflexivity|]. split; [exact Hcalls|].
  unfold error_messages, data_chunks in *. rewrite !omap_app, Herrors.
  split; [done|]. split; [by rewrite app_nil_r|].
  unfold GetVolumeArchive in *. cbn [worker_reads_in_progress_ set_reads].
  split; [apply lookup_insert_eq|].
  apply dom_insert_lookup_L. by rewrite Hget.
Qed.

(** C10.  A ReadFile request whose length is zero or negative sends
    nothing and leaves the Volume, with the session it looked up, as it
    was. *)
Theorem ReadFileCallback_nonpositive_length (v : Volume A)
    (request_id_ : string) (request : ReadFileRequest) (volume_archive : A) :
  GetVolumeArchive v (open_request_id request) = Some volume_archive →
  (length_ request ≤ 0)%Z →
  ReadFileCallback request_id_ request v = Some ([], v).
Proof.
  intros Hget Hlen. unfold ReadFileCallback. rewrite Hget. cbn.
  rewrite ReadFileLoop_eq. destruct (decide (0 < length_ request)%Z); [lia|].
  cbn. by rewrite set_reads_insert_same.
Qed.

(** C8.  A chunk-arrival or chunk-error notification for a request id that
    is not in the registry returns, sends nothing and leaves the Volume as
    it was. *)
Theorem chunk_notification_for_absent_request (v : Volume A)
    (request_id_ : string) (array_buffer : list byte) (read_offset : Z) :
  GetVolumeArchive v request_id_ = None →
  ReadChunkDone request_id_ array_buffer read_offset v = ([], v)
  ∧ ReadChunkError request_id_ v = ([], v).
Proof.
  intros Hget. unfold ReadChunkDone, ReadChunkError. by rewrite Hget.
Qed.

(** C9.  CleanupVolumeArchive erases the archive's entry from the registry
    whether or not releasing the archive succeeds; it sends an error
    message, and returns false, exactly when the release fails and the
    report-error flag is set. *)
Theorem CleanupVolumeArchive_erases (v : Volume A) (volume_archive : A)
    (post_cleanup_error : bool) :
  is_Some (GetVolumeArchive v (request_id volume_archive)) →
  ∃ ok events v',
    CleanupVolumeArchive volume_archive post_cleanup_error v
      = Some (ok, events, v') ∧
    worker_reads_in_progress_ v'
      = delete (request_id volume_archive) (worker_reads_in_progress_ v) ∧
    GetVolumeArchive v' (request_id volume_archive) = None ∧
    file_system_id_ v' = file_system_id_ v ∧
    if negb (Cleanup volume_archive).1 && post_cleanup_error
    then ok = false ∧
         events = [SendFileSystemError (file_system_id_ v)
                     (request_id (Cleanup volume_archive).2)
                     (error_message (Cleanup volume_archive).2)]
    else ok = true ∧ events = [].
Proof.
  intros Hsome. unfold CleanupVolumeArchive, GetVolumeArchive in *.
  rewrite bool_decide_eq_true_2 by done. cbn.
  destruct (negb (Cleanup volume_archive).1 && post_cleanup_error);
    eexists _, _, _; (split; [reflexivity|]); cbn;
    rewrite lookup_delete_eq; done.
Qed.

(** An explicit CloseFile is what removes a session. *)
Lemma CloseFileCallback_removes (v : Volume A)
    (request_id_ open_request_id : string) (volume_archive : A) :
  GetVolumeArchive v open_request_id = Some volume_archive →
  request_id volume_archive = open_request_id →
  ∃ v', CloseFileCallback request_id_ open_request_id v
        = Some ([SendCloseFileDone (file_system_id_ v) request_id_ open_request_id],
                v')
      ∧ GetVolumeArchive v' open_request_id = None.
Proof.
  intros Hget Hid. unfold CloseFileCallback. rewrite Hget. cbn.
  unfold CleanupVolumeArchive, GetVolumeArchive in *. rewrite Hid, Hget.
  rewrite bool_decide_eq_true_2 by done. cbn. rewrite andb_false_r. cbn.
  eexists. split; [reflexivity|]. cbn. apply lookup_delete_eq.
Qed.

End VolumeProofs.


(** The run of the witness above: two chunks, of 512 KB and of the rest. *)
Example ReadFileCallback_two_chunks :
  (λ r, (read_calls r.1, chunk_sizes r.1, snd <$> data_chunks r.1,
         error_messages r.1))
    <$> ReadFileCallback "read-1" read_600000_at_10
          (fake_volume (fake_archive 2 true))
  = Some ([(10, 524288, true); (524298, 75712, true)]%Z,
          [524288; 75712]%Z, [true; false], []).
Proof. vm_compute. reflexivity. Qed.

(** A length that is a multiple of the maximum: the last chunk is full and
    carries the flag false. *)
Example ReadFileCallback_exact_multiple :
  (λ r, (read_calls r.1, chunk_sizes r.1, snd <$> data_chunks r.1))
    <$> ReadFileCallback "read-1"
          {| open_request_id := "open-1"; offset := 0; length_ := 1048576 |}
          (fake_volume (fake_archive 2 true))
  = Some ([(0, 524288, true); (524288, 524288, true)]%Z,
          [524288; 524288]%Z, [true; false]).
Proof. vm_compute. reflexivity. Qed.


Lemma ReadFileCallback_read_failure_witness :
  ∃ events v' before offset' len',
    ReadFileCallback "read-1" read_600000_at_10 (fake_volume (fake_archive 1 true))
      = Some (events, v') ∧
    events = before ++
      [ReadDataCall offset' len' false;
       SendFileSystemError (file_system_id_ (fake_volume (fake_archive 1 true)))
         "read-1" (error_message (fake_archive 0 true))] ∧
    Forall (λ call, call.2 = true) (read_calls before) ∧
    error_messages events
      = [(file_system_id_ (fake_volume (fake_archive 1 true)), "read-1",
          error_message (fake_archive 0 true))] ∧
    data_chunks events = data_chunks before ∧
    GetVolumeArchive v' (open_request_id read_600000_at_10)
      = Some (fake_archive 0 true) ∧
    dom (worker_reads_in_progress_ v')
      = dom (worker_reads_in_progress_ (fake_volume (fake_archive 1 true))).
Proof.
  apply (ReadFileCallback_read_failure (fake_volume (fake_archive 1 true))
           "read-1" read_600000_at_10 (fake_archive 1 true) (fake_archive 0 true)).
  - reflexivity.
  - vm_compute. reflexivity.
Defined.

(** The run of the witness above: the second ReadData call fails. *)
Example ReadFileCallback_second_read_fails :
  (λ r, (read_calls r.1, chunk_sizes r.1, error_messages r.1,
         is_Some (GetVolumeArchive r.2 "open-1")))
    <$> ReadFileCallback "read-1" read_600000_at_10
          (fake_volume (fake_archive 1 true))
  = Some ([(10, 524288, true); (524298, 75712, false)]%Z, [524288%Z],
          [("fs", "read-1", "fake archive error")],
          is_Some (Some (fake_archive 0 true))).
Proof. vm_compute. reflexivity. Qed.

Lemma ReadFileCallback_nonpositive_length_witness :
  ReadFileCallback "read-1"
    {| open_request_id := "open-1"; offset := 10; length_ := 0 |}
    (fake_volume (fake_archive 0 true))
  = Some ([], fake_volume (fake_archive 0 true)).
Proof.
  apply (ReadFileCallback_nonpositive_length
           (fake_volume (fake_archive 0 true)) "read-1" _ (fake_archive 0 true)).
  - reflexivity.
  - by vm_compute.
Defined.

Lemma chunk_notification_for_absent_request_witness :
  ReadChunkDone "closed-7" [x01; x02] 0 (fake_volume (fake_archive 0 true))
    = ([], fake_volume (fake_archive 0 true))
  ∧ ReadChunkError "closed-7" (fake_volume (fake_archive 0 true))
    = ([], fake_volume (fake_archive 0 true)).
Proof.
  apply (chunk_notification_for_absent_request
           (fake_volume (fake_archive 0 true)) "closed-7").
  reflexivity.
Defined.

Lemma CleanupVolumeArchive_erases_witness :
  ∃ ok events v',
    CleanupVolumeArchive (fake_archive 0 false) true
      (fake_volume (fake_archive 0 false)) = Some (ok, events, v') ∧
    worker_reads_in_progress_ v' = delete "open-1" {["open-1" := fake_archive 0 false]} ∧
    GetVolumeArchive v' "open-1" = None ∧
    file_system_id_ v' = "fs" ∧
    ok = false ∧
    events = [SendFileSystemError "fs" "open-1" "fake archive error"].
Proof.
  assert (is_Some (GetVolumeArchive (fake_volume (fake_archive 0 false))
                     (request_id (fake_archive 0 false)))) as Hregistered
    by (eexists; reflexivity).
  exact (CleanupVolumeArchive_erases (fake_volume (fake_archive 0 false))
           (fake_archive 0 false) true Hregistered).
Defined.

(** ** Metadata tree *)

Lemma Get_singleton (key name : string) (v : Var) :
  Get (VDict {[key := v]}) name = if decide (key = name) then v else VUndefined.
Proof. unfold Get. rewrite lookup_singleton. by case_decide. Qed.

Lemma ConstructMetadata_eq (entry_path : string) (size : Z)
    (is_directory : bool) (modification_time : Z) (parent_metadata : Var) :
  ConstructMetadata entry_path size is_directory modification_time parent_metadata =
    if decide (entry_path = "") then Some parent_metadata else
    parent_entries ← VarDictionary (Get parent_metadata "entries");
    match index 0 kPathDelimiter entry_path with
    | None =>
        entry_metadata ←
          (if negb (is_undefined (Get parent_entries entry_path)) then
             old_entry_metadata ← VarDictionary (Get parent_entries entry_path);
             PP_DCHECK (AsBool (Get old_entry_metadata "isDirectory"));;
             Some (Set_ (CreateEntry entry_path is_directory size modification_time)
                        "entries" (Get old_entry_metadata "entries"))
           else Some (CreateEntry entry_path is_directory size modification_time));
        Some (Set_ parent_metadata "entries"
                   (Set_ parent_entries entry_path entry_metadata))
    | Some position =>
        let entry_name := substring 0 position entry_path in
        entry_metadata ←
          (if is_undefined (Get parent_entries entry_name)
           then Some (CreateEntry entry_name true 0 modification_time)
           else VarDictionary (Get parent_entries entry_name));
        entry_metadata ←
          ConstructMetadata
            (substr_from (position + String.length kPathDelimiter) entry_path)
            size is_directory modification_time entry_metadata;
        Some (Set_ parent_metadata "entries"
                   (Set_ parent_entries entry_name entry_metadata))
    end.
Proof.
  simp ConstructMetadata.
  destruct (string_dec entry_path "") as [Heq|Hne]; simp ConstructMetadata.
  - by rewrite decide_True.
  - by rewrite decide_False.
Qed.

Lemma VarDictionary_Some (v d : Var) :
  VarDictionary v = Some d → ∃ m, v = VDict m ∧ d = VDict m.
Proof. destruct v; cbn; intros [= <-]; eauto. Qed.

Lemma Get_Set_eq (fields : gmap string Var) (key : string) (v : Var) :
  Get (Set_ (VDict fields) key v) key = v.
Proof. cbn. by rewrite lookup_insert_eq. Qed.

Lemma Get_Set_ne (fields : gmap string Var) (key key' : string) (v : Var) :
  key ≠ key' → Get (Set_ (VDict fields) key v) key' = Get (VDict fields) key'.
Proof. intros Hne. cbn. by rewrite lookup_insert_ne. Qed.

Lemma Get_dictionary (parent : Var) (key : string) (m : gmap string Var) :
  Get parent key = VDict m → ∃ fields, parent = VDict fields.
Proof. destruct parent; cbn; try done. eauto. Qed.

(** What CreateEntry builds is consistent: only a directory gets the
    "entries" key. *)
Lemma CreateEntry_consistent (name : string) (is_directory : bool)
    (size modification_time : Z) :
  consistent_tree (CreateEntry name is_directory size modification_time).
Proof.
  intros [|child path] node Hnode.
  - injection Hnode as <-. by destruct is_directory.
  - destruct is_directory; by vm_compute in Hnode.
Qed.

Lemma consistent_child (parent : Var) (name : string) (m : gmap string Var) :
  consistent_tree parent →
  Get (Get parent "entries") name = VDict m →
  consistent_tree (VDict m).
Proof.
  intros Hparent Hchild path node Hnode. apply (Hparent (name :: path)).
  cbn [node_at]. by rewrite Hchild.
Qed.

(** Storing a child under [name] in the children of [parent]: the paths
    through [name] lead into the child, the others are as before. *)
Lemma node_at_updated (parent : Var) (m : gmap string Var) (name : string)
    (child : Var) (path : list string) :
  Get parent "entries" = VDict m →
  is_dictionary child = true →
  node_at path (Set_ parent "entries" (Set_ (VDict m) name child)) =
    match path with
    | [] => Some (Set_ parent "entries" (Set_ (VDict m) name child))
    | first :: path' =>
        if decide (first = name) then node_at path' child
        else node_at path parent
    end.
Proof.
  intros Hentries Hchild. destruct path as [|first path']; [done|].
  destruct (Get_dictionary _ _ _ Hentries) as [fields ->].
  cbn [node_at]. rewrite Get_Set_eq, Hentries.
  destruct (decide (first = name)) as [->|Hne].
  - rewrite Get_Set_eq. by destruct child.
  - by rewrite Get_Set_ne.
Qed.

Lemma updated_consistent (parent : Var) (m : gmap string Var) (name : string)
    (child : Var) :
  consistent_tree parent →
  Get parent "entries" = VDict m →
  is_dictionary child = true →
  consistent_tree child →
  consistent_tree (Set_ parent "entries" (Set_ (VDict m) name child)).
Proof.
  intros Hparent Hentries Hdict Hchild path node.
  rewrite node_at_updated by done. destruct path as [|first path'].
  - intros [= <-]. pose proof (Hparent [] parent eq_refl) as [Hdir _].
    destruct (Get_dictionary _ _ _ Hentries) as [fields ->].
    rewrite Hentries in Hdir. specialize (Hdir eq_refl).
    unfold entries_iff_directory. rewrite Get_Set_eq, Get_Set_ne by done.
    done.
  - case_decide; [apply Hchild|apply Hparent].
Qed.

Lemma length_substr_from_lt (position : nat) (entry_path : string) :
  entry_path ≠ "" →
  String.length (substr_from (position + String.length kPathDelimiter) entry_path)
    < String.length entry_path.
Proof.
  intros Hne. unfold substr_from. change (String.length kPathDelimiter) with 1.
  assert (∀ (text : string) (i j : nat), String.length (substring i j text) <= j)
    as Hle.
  { induction text as [|c text IH]; intros [|i] [|j]; simpl; try lia.
    - specialize (IH 0 j). lia.
    - apply IH.
    - apply IH. }
  pose proof (Hle entry_path (position + 1)
                (String.length entry_path - (position + 1))).
  destruct entry_path as [|c rest]; [done|].
  change (String.length (String c rest)) with (S (String.length rest)) in *.
  lia.
Qed.

(** A directory entry that takes over the children of the node it
    replaces is consistent when that node was a consistent directory. *)
Lemma merged_directory_consistent (name : string) (size modification_time : Z)
    (old : Var) :
  consistent_tree old →
  is_dictionary (Get old "entries") = true →
  consistent_tree
    (Set_ (CreateEntry name true size modification_time) "entries"
          (Get old "entries")).
Proof.
  intros Hold Hentries [|first path] node Hnode.
  - injection Hnode as <-. split; intros _; [reflexivity|exact Hentries].
  - apply (Hold (first :: path)). exact Hnode.
Qed.

(** Inserting a directory entry keeps a consistent tree consistent. *)
Lemma ConstructMetadata_directory_consistent (entry_path : string) (size : Z)
    (modification_time : Z) (parent_metadata parent_metadata' : Var) :
  consistent_tree parent_metadata →
  ConstructMetadata entry_path size true modification_time parent_metadata
    = Some parent_metadata' →
  consistent_tree parent_metadata' ∧
  (is_dictionary parent_metadata = true → is_dictionary parent_metadata' = true).
Proof.
  remember (String.length entry_path) as k eqn:Hk.
  revert entry_path Hk parent_metadata parent_metadata'.
  induction k as [k IH] using lt_wf_ind.
  intros entry_path Hk parent parent' Hparent. rewrite ConstructMetadata_eq.
  case_decide as Hempty; [by intros [= <-]|].
  destruct (VarDictionary (Get parent "entries")) as [parent_entries|] eqn:Hpe;
    [|done].
  apply VarDictionary_Some in Hpe as (m & Hentries & ->). cbn [mbind option_bind].
  destruct (Get_dictionary _ _ _ Hentries) as [fields Hfields].
  destruct (index 0 kPathDelimiter entry_path) as [position|].
  - (* on the way to the entry *)
    cbv zeta. set (entry_name := substring 0 position entry_path).
    set (rest := substr_from _ entry_path).
    assert (String.length rest < k) as Hlt
      by (subst k; by apply length_substr_from_lt).
    assert (∀ entry_metadata,
      consistent_tree entry_metadata → is_dictionary entry_metadata = true →
      (child ← ConstructMetadata rest size true modification_time entry_metadata;
       Some (Set_ parent "entries" (Set_ (VDict m) entry_name child)))
        = Some parent' →
      consistent_tree parent' ∧
      (is_dictionary parent = true → is_dictionary parent' = true)) as Hstep.
    { intros entry_metadata Hcons Hdict.
      destruct (ConstructMetadata rest _ _ _ entry_metadata) as [child|] eqn:Hrec;
        [|done].
      cbn [mbind option_bind]. intros [= <-].
      destruct (IH _ Hlt rest eq_refl _ _ Hcons Hrec) as [Hchild Hchild_dict].
      split; [apply updated_consistent; auto|by subst parent]. }
    destruct (is_undefined (Get (VDict m) entry_name)) eqn:Hundef.
    + apply Hstep; [apply CreateEntry_consistent|done].
    + destruct (VarDictionary (Get (VDict m) entry_name)) as [old|] eqn:Hold;
        [|done].
      apply VarDictionary_Some in Hold as (mc & Hc & ->).
      apply Hstep; [|done]. eapply consistent_child; [exact Hparent|].
      rewrite Hentries. exact Hc.
  - (* the entry itself *)
    destruct (negb (is_undefined (Get (VDict m) entry_path))) eqn:Hdef.
    + destruct (VarDictionary (Get (VDict m) entry_path)) as [old|] eqn:Hold;
        [|done].
      apply VarDictionary_Some in Hold as (mc & Hc & ->).
      cbn [mbind option_bind].
      destruct (AsBool (Get (VDict mc) "isDirectory")) eqn:Hdir; [|done].
      cbn [PP_DCHECK mbind option_bind]. intros [= <-].
      assert (consistent_tree (VDict mc)) as Hold.
      { eapply consistent_child; [exact Hparent|]. rewrite Hentries. exact Hc. }
      split; [|by subst parent]. apply updated_consistent; try done.
      change (consistent_tree
                (Set_ (CreateEntry entry_path true size modification_time)
                      "entries" (Get (VDict mc) "entries"))).
      apply merged_directory_consistent; [done|].
      apply (Hold [] _ eq_refl).
      destruct (Get (VDict mc) "isDirectory") as [|[]| |]; done.
    + cbn [mbind option_bind]. intros [= <-]. split; [|by subst parent].
      apply updated_consistent; try done.
      exact (CreateEntry_consistent entry_path true size modification_time).
Qed.

Section MetadataExamples.
Variables (size_b mtime_b size_a mtime_a : Z).

Lemma entries_tree_with (name : string) (child : Var) :
  Get (tree_with name child) "entries" = VDict {[name := child]}.
Proof. reflexivity. Qed.

Lemma node_at_singleton (v : Var) (key : string) (child : Var)
    (name : string) (path : list string) :
  Get v "entries" = VDict {[key := child]} →
  is_dictionary child = true →
  node_at (name :: path) v = if decide (key = name) then node_at path child else None.
Proof.
  intros Hentries Hdict. cbn [node_at]. rewrite Hentries, Get_singleton.
  case_decide; [by destruct child|done].
Qed.

Lemma node_at_leaf (v : Var) (name : string) (path : list string) :
  Get v "entries" = VUndefined → node_at (name :: path) v = None.
Proof. intros Hentries. cbn [node_at]. by rewrite Hentries. Qed.

(** C4.  Inserting "/a/b.txt" as a file and then "/a" as a directory gives
    a tree with exactly one node named "a".  That node carries the
    attributes of the directory entry that came second, is a directory, and
    has the children collected before it: the one child "b.txt".  (The
    leading delimiter makes the first path segment empty, so the node sits
    under a directory with the empty name.) *)
Theorem ConstructMetadata_directory_after_file :
  ∃ tree node_a,
    ConstructAll [("/a/b.txt", size_b, false, mtime_b);
                  ("/a", size_a, true, mtime_a)] root_metadata = Some tree
    ∧ node_at [""; "a"] tree = Some node_a
    ∧ node_a = Set_ (CreateEntry "a" true size_a mtime_a) "entries"
                    (VDict {["b.txt" := CreateEntry "b.txt" false size_b mtime_b]})
    ∧ Get node_a "isDirectory" = VBool true
    ∧ (∀ path node,
         node_at path tree = Some node →
         Get node "name" = VString "a" → path = [""; "a"]).
Proof.
  exists (tree_with "" (unnamed_directory size_b mtime_b size_a mtime_a)), (merged_a size_b mtime_b size_a mtime_a true).
  split; [vm_compute; reflexivity|]. split; [vm_compute; reflexivity|].
  split; [reflexivity|]. split; [vm_compute; reflexivity|].
  intros path node Hnode Hname.
  destruct path as [|p1 path].
  { injection Hnode as <-. vm_compute in Hname. discriminate. }
  rewrite (node_at_singleton _ "" (unnamed_directory size_b mtime_b size_a mtime_a)) in Hnode
    by (vm_compute; reflexivity).
  case_decide as Hp1; [subst p1|done].
  destruct path as [|p2 path].
  { injection Hnode as <-. vm_compute in Hname. discriminate. }
  rewrite (node_at_singleton _ "a" (merged_a size_b mtime_b size_a mtime_a true)) in Hnode
    by (vm_compute; reflexivity).
  case_decide as Hp2; [subst p2|done].
  destruct path as [|p3 path]; [done|].
  rewrite (node_at_singleton _ "b.txt" (file_b size_b mtime_b)) in Hnode
    by (vm_compute; reflexivity).
  case_decide as Hp3; [subst p3|done].
  destruct path as [|p4 path].
  { injection Hnode as <-. vm_compute in Hname. discriminate. }
  rewrite node_at_leaf in Hnode by (vm_compute; reflexivity). done.
Qed.

(** The same two entries with the paths as the archive gives them (no
    leading delimiter): the single node "a" is a child of the root. *)
Lemma ConstructMetadata_directory_after_file_relative :
  ConstructAll [("a/b.txt", size_b, false, mtime_b);
                ("a", size_a, true, mtime_a)] root_metadata
  = Some (tree_with "a" (merged_a size_b mtime_b size_a mtime_a true)).
Proof. vm_compute. reflexivity. Qed.

(** C5, evaluated where it fails.  A file entry "a" that arrives after
    "a/b.txt" meets the placeholder directory "a"; the assertion on the old
    node passes, and the new node is flagged as a file and still receives
    the placeholder's children mapping. *)
Theorem ConstructMetadata_file_after_child :
  ∃ tree node_a,
    ConstructAll [("a/b.txt", size_b, false, mtime_b);
                  ("a", size_a, false, mtime_a)] root_metadata = Some tree
    ∧ node_at ["a"] tree = Some node_a
    ∧ Get node_a "isDirectory" = VBool false
    ∧ Get node_a "entries"
      = VDict {["b.txt" := CreateEntry "b.txt" false size_b mtime_b]}
    ∧ ¬ entries_iff_directory node_a.
Proof.
  exists (tree_with "a" (merged_a size_b mtime_b size_a mtime_a false)), (merged_a size_b mtime_b size_a mtime_a false).
  split; [vm_compute; reflexivity|]. split; [vm_compute; reflexivity|].
  split; [vm_compute; reflexivity|]. split; [reflexivity|].
  intros [Hdir _]. specialize (Hdir eq_refl). vm_compute in Hdir.
  discriminate.
Qed.

End MetadataExamples.

(** ** Paths of plain segments through ConstructMetadata *)

Lemma index_delimiter_cons (c : ascii) (s : string) :
  index 0 kPathDelimiter (String c s) =
    if decide (c = "/"%char) then Some 0
    else S <$> index 0 kPathDelimiter s.
Proof.
  cbn [index kPathDelimiter String.prefix].
  destruct (ascii_dec "/" c) as [<-|Hne].
  - rewrite decide_True by done. by destruct s.
  - rewrite decide_False by congruence. by destruct (index 0 "/" s).
Qed.

Lemma index_after_plain (s rest : string) :
  index 0 kPathDelimiter s = None →
  index 0 kPathDelimiter (s +:+ kPathDelimiter +:+ rest) = Some (String.length s).
Proof.
  induction s as [|c s IH]; intros Hs.
  - change (index 0 kPathDelimiter (String "/" rest) = Some 0).
    by rewrite index_delimiter_cons, decide_True.
  - rewrite index_delimiter_cons in Hs.
    change (String c s +:+ kPathDelimiter +:+ rest)
      with (String c (s +:+ kPathDelimiter +:+ rest)).
    rewrite index_delimiter_cons. case_decide; [done|].
    rewrite IH; [done|]. by destruct (index 0 kPathDelimiter s).
Qed.

Lemma substring_prefix (s t : string) :
  substring 0 (String.length s) (s +:+ t) = s.
Proof.
  induction s as [|c s IH]; [by destruct t|]. simpl. f_equal. exact IH.
Qed.

Lemma substring_all (s : string) : substring 0 (String.length s) s = s.
Proof. induction s as [|c s IH]; [done|]. simpl. f_equal. exact IH. Qed.

Lemma length_append (s t : string) :
  String.length (s +:+ t) = String.length s + String.length t.
Proof. induction s as [|c s IH]; [done|]. simpl. f_equal. exact IH. Qed.

Lemma substr_from_suffix (s t : string) :
  substr_from (String.length s) (s +:+ t) = t.
Proof.
  unfold substr_from. rewrite length_append.
  replace (String.length s + String.length t - String.length s)
    with (String.length t) by lia.
  induction s as [|c s IH]; [apply substring_all|]. exact IH.
Qed.

Lemma substr_from_after_delimiter (s rest : string) :
  substr_from (String.length s + String.length kPathDelimiter)
    (s +:+ kPathDelimiter +:+ rest) = rest.
Proof.
  unfold substr_from. rewrite !length_append.
  change (String.length kPathDelimiter) with 1.
  replace (String.length s + (1 + String.length rest) - (String.length s + 1))
    with (String.length rest) by lia.
  induction s as [|c s IH]; [apply substring_all|exact IH].
Qed.

(** [ConstructMetadata] on a path that is one plain segment. *)
Lemma ConstructMetadata_last (name : string) (size : Z) (is_directory : bool)
    (modification_time : Z) (parent_metadata : Var) :
  plain_segment name →
  ConstructMetadata name size is_directory modification_time parent_metadata =
    parent_entries ← VarDictionary (Get parent_metadata "entries");
    entry_metadata ←
      (if negb (is_undefined (Get parent_entries name)) then
         old_entry_metadata ← VarDictionary (Get parent_entries name);
         PP_DCHECK (AsBool (Get old_entry_metadata "isDirectory"));;
         Some (Set_ (CreateEntry name is_directory size modification_time)
                    "entries" (Get old_entry_metadata "entries"))
       else Some (CreateEntry name is_directory size modification_time));
    Some (Set_ parent_metadata "entries" (Set_ parent_entries name entry_metadata)).
Proof.
  intros [Hne Hplain]. rewrite ConstructMetadata_eq, decide_False by done.
  by rewrite Hplain.
Qed.

(** [ConstructMetadata] on a plain segment followed by the delimiter and
    the rest of the path. *)
Lemma ConstructMetadata_step (name rest : string) (size : Z) (is_directory : bool)
    (modification_time : Z) (parent_metadata : Var) :
  index 0 kPathDelimiter name = None →
  ConstructMetadata (name +:+ kPathDelimiter +:+ rest) size is_directory
      modification_time parent_metadata =
    parent_entries ← VarDictionary (Get parent_metadata "entries");
    entry_metadata ←
      (if is_undefined (Get parent_entries name)
       then Some (CreateEntry name true 0 modification_time)
       else VarDictionary (Get parent_entries name));
    entry_metadata ←
      ConstructMetadata rest size is_directory modification_time entry_metadata;
    Some (Set_ parent_metadata "entries" (Set_ parent_entries name entry_metadata)).
Proof.
  intros Hplain. rewrite ConstructMetadata_eq.
  rewrite decide_False by (by destruct name).
  rewrite index_after_plain by done. cbv zeta.
  by rewrite substring_prefix, substr_from_after_delimiter.
Qed.

Lemma join_path_cons (name next : string) (rest : list string) :
  join_path (name :: next :: rest)
  = name +:+ kPathDelimiter +:+ join_path (next :: rest).
Proof. reflexivity. Qed.

Lemma Get_Set_other (d : Var) (key key' : string) (v : Var) :
  key ≠ key' → Get (Set_ d key v) key' = Get d key'.
Proof. destruct d; try done. apply Get_Set_ne. Qed.

Lemma leaf_attributes_Set_entries (d v : Var) :
  leaf_attributes (Set_ d "entries" v) = leaf_attributes d.
Proof. unfold leaf_attributes. by rewrite !Get_Set_other. Qed.

Lemma leaf_attributes_CreateEntry (name : string) (is_directory : bool)
    (size modification_time : Z) :
  leaf_attributes (CreateEntry name is_directory size modification_time)
  = (VString name, VBool is_directory, VString (decimal size),
     VString (decimal modification_time)).
Proof. by destruct is_directory. Qed.

Lemma ConstructMetadata_dictionary (entry_path : string) (size : Z)
    (is_directory : bool) (modification_time : Z) (parent parent' : Var) :
  entry_path ≠ "" →
  ConstructMetadata entry_path size is_directory modification_time parent
    = Some parent' →
  is_dictionary parent = true ∧ is_dictionary parent' = true.
Proof.
  intros Hne. rewrite ConstructMetadata_eq, decide_False by done.
  destruct (VarDictionary (Get parent "entries")) as [pe|] eqn:Hpe; [|done].
  apply VarDictionary_Some in Hpe as (m & Hentries & ->).
  destruct (Get_dictionary _ _ _ Hentries) as [fields ->].
  cbn [mbind option_bind]. intros Hresult.
  split; [done|].
  destruct (index 0 kPathDelimiter entry_path); cbv zeta in Hresult.
  - destruct (if is_undefined _ then _ else _); [|done].
    cbn [mbind option_bind] in Hresult.
    destruct (ConstructMetadata _ _ _ _ _); [|done].
    by injection Hresult as <-.
  - destruct (if negb _ then _ else _); [|done]. by injection Hresult as <-.
Qed.

Lemma join_path_nonempty (segments : list string) :
  Forall plain_segment segments → segments ≠ [] → join_path segments ≠ "".
Proof.
  intros Hplain Hne. destruct segments as [|s [|next rest]]; [done| |].
  - apply Forall_cons in Hplain as [[? _] _]. done.
  - rewrite join_path_cons. apply Forall_cons in Hplain as [[? _] _].
    by destruct s.
Qed.

Lemma node_at_stored (parent : Var) (m : gmap string Var) (name : string)
    (child : Var) (path : list string) :
  Get parent "entries" = VDict m →
  is_dictionary child = true →
  node_at path (Set_ parent "entries" (VDict (<[name := child]> m))) =
    match path with
    | [] => Some (Set_ parent "entries" (VDict (<[name := child]> m)))
    | first :: path' =>
        if decide (first = name) then node_at path' child
        else node_at path parent
    end.
Proof. exact (node_at_updated parent m name child path). Qed.

(** X1.  Insert, then look up: when the insertion goes through, the entry is
    found at the path of its segments and carries the attributes it was
    inserted with. *)
Theorem ConstructMetadata_lookup (segments : list string) (size : Z)
    (is_directory : bool) (modification_time : Z) (parent parent' : Var) :
  Forall plain_segment segments →
  segments ≠ [] →
  ConstructMetadata (join_path segments) size is_directory modification_time
    parent = Some parent' →
  ∃ node name,
    node_at segments parent' = Some node ∧
    last segments = Some name ∧
    leaf_attributes node
    = (VString name, VBool is_directory, VString (decimal size),
       VString (decimal modification_time)).
Proof.
  revert parent parent'.
  induction segments as [|s segments IH]; intros parent parent' Hplain Hne;
    [done|].
  apply Forall_cons in Hplain as [Hs Hplain].
  destruct segments as [|next segments].
  - (* the entry itself *)
    cbn [join_path]. rewrite ConstructMetadata_last by done.
    destruct (VarDictionary (Get parent "entries")) as [pe|] eqn:Hpe; [|done].
    apply VarDictionary_Some in Hpe as (m & Hentries & ->).
    cbn [mbind option_bind].
    destruct (if negb _ then _ else _) as [entry|] eqn:Hentry; [|done].
    cbn [mbind option_bind]. intros [= <-].
    assert (is_dictionary entry = true ∧
            leaf_attributes entry
            = (VString s, VBool is_directory, VString (decimal size),
               VString (decimal modification_time))) as [Hdict Hattr].
    { destruct (negb _).
      - destruct (VarDictionary (Get (VDict m) s)) as [old|]; [|done].
        cbn [mbind option_bind] in Hentry.
        destruct (PP_DCHECK _); [|done]. injection Hentry as <-.
        rewrite leaf_attributes_Set_entries, leaf_attributes_CreateEntry.
        by destruct is_directory.
      - injection Hentry as <-. rewrite leaf_attributes_CreateEntry.
        by destruct is_directory. }
    exists entry, s. rewrite node_at_stored by done.
    rewrite decide_True by done. done.
  - (* on the way to the entry *)
    rewrite join_path_cons, ConstructMetadata_step by apply Hs.
    destruct (VarDictionary (Get parent "entries")) as [pe|] eqn:Hpe; [|done].
    apply VarDictionary_Some in Hpe as (m & Hentries & ->).
    cbn [mbind option_bind].
    destruct (if is_undefined _ then _ else _) as [entry|]; [|done].
    cbn [mbind option_bind].
    destruct (ConstructMetadata _ _ _ _ entry) as [entry'|] eqn:Hrec; [|done].
    cbn [mbind option_bind]. intros [= <-].
    destruct (IH entry entry' Hplain ltac:(done) Hrec) as (node & name & Hnode & Hlast & Hattr).
    destruct (ConstructMetadata_dictionary _ _ _ _ _ _
                (join_path_nonempty _ Hplain ltac:(done)) Hrec) as [_ Hdict].
    exists node, name. rewrite node_at_stored by done.
    rewrite decide_True by done. done.
Qed.




Lemma ConstructMetadata_empty (size : Z) (is_directory : bool)
    (modification_time : Z) (parent : Var) :
  ConstructMetadata "" size is_directory modification_time parent = Some parent.
Proof. by rewrite ConstructMetadata_eq. Qed.

(** X5.  A path that ends with the delimiter and names a new child creates a
    directory of size 0: the size and the directory flag of the header are
    not used. *)
Theorem ConstructMetadata_trailing_delimiter_new (name : string) (size : Z)
    (is_directory : bool) (modification_time : Z) (parent : Var)
    (children : gmap string Var) :
  index 0 kPathDelimiter name = None →
  Get parent "entries" = VDict children →
  children !! name = None →
  ConstructMetadata (name +:+ kPathDelimiter) size is_directory
    modification_time parent
  = Some (Set_ parent "entries"
            (VDict (<[name := CreateEntry name true 0 modification_time]> children))).
Proof.
  intros Hplain Hentries Hnew.
  change (name +:+ kPathDelimiter) with (name +:+ kPathDelimiter +:+ "").
  rewrite ConstructMetadata_step by done. rewrite Hentries.
  cbn [VarDictionary is_dictionary mbind option_bind Get]. rewrite Hnew.
  cbn [default from_option is_undefined mbind option_bind].
  by rewrite ConstructMetadata_empty.
Qed.

(** X6.  A path that ends with the delimiter and names an existing node leaves
    the tree as it is: nothing of the header is used. *)
Theorem ConstructMetadata_trailing_delimiter_existing (name : string) (size : Z)
    (is_directory : bool) (modification_time : Z) (parent : Var)
    (children : gmap string Var) (old : Var) :
  index 0 kPathDelimiter name = None →
  Get parent "entries" = VDict children →
  children !! name = Some old →
  is_dictionary old = true →
  ConstructMetadata (name +:+ kPathDelimiter) size is_directory
    modification_time parent
  = Some parent.
Proof.
  intros Hplain Hentries Hold Hdictionary.
  destruct old as [| | |fields]; try done.
  change (name +:+ kPathDelimiter) with (name +:+ kPathDelimiter +:+ "").
  rewrite ConstructMetadata_step by done. rewrite Hentries.
  cbn [VarDictionary is_dictionary mbind option_bind Get]. rewrite Hold.
  cbn [default from_option id is_undefined is_dictionary mbind option_bind].
  change (VarDictionary (VDict fields)) with (Some (VDict fields)).
  cbn [mbind option_bind].
  rewrite ConstructMetadata_empty. cbn [mbind option_bind Set_].
  destruct (Get_dictionary _ _ _ Hentries) as [own ->].
  cbn [Get] in Hentries. destruct (own !! "entries") as [entries|] eqn:Hown;
    [|done].
  cbn in Hentries. subst entries. cbn [Set_].
  by rewrite (insert_id children), (insert_id own).
Qed.

(** A plain name that is new among the children of the parent. *)
Lemma ConstructMetadata_new_leaf (name : string)
    (size : Z) (is_directory : bool) (modification_time : Z) (parent : Var)
    (children : gmap string Var) :
  plain_segment name →
  Get parent "entries" = VDict children →
  children !! name = None →
  ConstructMetadata name size is_directory modification_time parent
  = Some (Set_ parent "entries"
            (VDict (<[name := CreateEntry name is_directory size
                                modification_time]> children))).
Proof.
  intros Hname Hentries Hnew. rewrite ConstructMetadata_last by done.
  rewrite Hentries.
  cbn [VarDictionary is_dictionary mbind option_bind Get]. by rewrite Hnew.
Qed.


(** X4.  A directory and an entry inside it give the same tree in either order
    of arrival. *)
Theorem ConstructMetadata_directory_order (directory inner : string)
    (size_d time_d size_i time_i : Z) (is_directory : bool) (parent : Var)
    (children : gmap string Var) :
  plain_segment directory → plain_segment inner →
  Get parent "entries" = VDict children →
  children !! directory = None →
  let inside := (join_path [directory; inner], size_i, is_directory, time_i) in
  let own := (directory, size_d, true, time_d) in
  ConstructAll [inside; own] parent = ConstructAll [own; inside] parent
  ∧ ConstructAll [own; inside] parent
    = Some (Set_ parent "entries"
              (VDict (<[directory :=
                          Set_ (CreateEntry directory true size_d time_d) "entries"
                            (VDict {[inner := CreateEntry inner is_directory
                                                size_i time_i]})]> children))).
Proof.
  intros Hdirectory Hinner Hentries Hnew inside own.
  destruct (Get_dictionary _ _ _ Hentries) as [fields ->].
  cbn [Get] in Hentries.
  assert (fields !! "entries" = Some (VDict children)) as Hfields.
  { destruct (fields !! "entries"); [cbn in Hentries; by subst|done]. }
  assert (ConstructAll [own; inside] (VDict fields)
          = Some (Set_ (VDict fields) "entries"
              (VDict (<[directory :=
                          Set_ (CreateEntry directory true size_d time_d) "entries"
                            (VDict {[inner := CreateEntry inner is_directory
                                                size_i time_i]})]> children))))
    as Hsecond.
  { subst inside own. cbn [ConstructAll].
    rewrite (ConstructMetadata_new_leaf directory _ _ _ _ children)
      by (done || (cbn; by rewrite Hfields)).
    cbn [mbind option_bind fresh_branch].
    rewrite join_path_cons, ConstructMetadata_step by apply Hdirectory.
    cbn [join_path]. rewrite Get_Set_eq.
    cbn [VarDictionary is_dictionary mbind option_bind Get].
    rewrite lookup_insert_eq.
    cbn [default from_option id is_undefined].
    replace (is_undefined (CreateEntry directory true size_d time_d))
      with false by done.
    replace (VarDictionary (CreateEntry directory true size_d time_d))
      with (Some (CreateEntry directory true size_d time_d)) by done.
    cbn [mbind option_bind].
    rewrite (ConstructMetadata_new_leaf inner _ _ _ _ ∅) by done.
    cbn [mbind option_bind fresh_branch Set_]. do 2 f_equal.
    by rewrite !insert_insert_eq. }
  split; [|exact Hsecond]. rewrite Hsecond. subst inside own.
  cbn [ConstructAll].
  rewrite join_path_cons, ConstructMetadata_step by apply Hdirectory.
  cbn [join_path Get]. rewrite Hfields.
  cbn [default from_option id VarDictionary is_dictionary mbind option_bind Get].
  rewrite Hnew. cbn [default from_option is_undefined mbind option_bind].
  rewrite (ConstructMetadata_new_leaf inner _ _ _ _ ∅) by done.
  cbn [mbind option_bind].
  change (<[inner:=CreateEntry inner is_directory size_i time_i]> ∅)
    with ({[inner := CreateEntry inner is_directory size_i time_i]}
          : gmap string Var).
  rewrite ConstructMetadata_last by done.
  rewrite Get_Set_eq.
  cbn [VarDictionary is_dictionary mbind option_bind Get Set_].
  rewrite lookup_insert_eq.
  cbn [default from_option id].
  set (placeholder := Set_ (CreateEntry directory true 0 time_i) "entries"
         (VDict {[inner := CreateEntry inner is_directory size_i time_i]})).
  assert (is_undefined placeholder = false) as Hdefined by done.
  assert (VarDictionary placeholder = Some placeholder) as Hdictionary by done.
  assert (AsBool (Get placeholder "isDirectory") = true) as Hflag by done.
  assert (Get placeholder "entries"
          = VDict {[inner := CreateEntry inner is_directory size_i time_i]})
    as Hkept by done.
  rewrite ?Hdefined, ?Hdictionary. cbn [negb mbind option_bind].
  rewrite ?Hdictionary. cbn [mbind option_bind].
  rewrite Hflag. cbn [PP_DCHECK mbind option_bind]. rewrite Hkept.
  cbn [Set_]. do 2 f_equal. by rewrite !insert_insert_eq.
Qed.

Lemma ConstructMetadata_lookup_witness :
  ∃ node name,
    node_at ["a"; "b.txt"] (tree_with "a" (fresh_branch "a" ["b.txt"] 5 false 7))
      = Some node ∧
    last ["a"; "b.txt"] = Some name ∧
    leaf_attributes node
    = (VString name, VBool false, VString (decimal 5), VString (decimal 7)).
Proof.
  apply (ConstructMetadata_lookup ["a"; "b.txt"] 5 false 7 root_metadata).
  - repeat constructor; discriminate.
  - done.
  - vm_compute. reflexivity.
Defined.



Lemma ConstructMetadata_directory_order_witness :
  ConstructAll [(join_path ["a"; "b.txt"], 5, false, 7); ("a", 0, true, 9)]%Z
    root_metadata
  = ConstructAll [("a", 0, true, 9); (join_path ["a"; "b.txt"], 5, false, 7)]%Z
      root_metadata
  ∧ ConstructAll [("a", 0, true, 9); (join_path ["a"; "b.txt"], 5, false, 7)]%Z
      root_metadata
    = Some (Set_ root_metadata "entries"
              (VDict (<["a" := Set_ (CreateEntry "a" true 0 9) "entries"
                                 (VDict {["b.txt" := CreateEntry "b.txt" false 5 7]})]>
                        ∅))).
Proof.
  apply (ConstructMetadata_directory_order "a" "b.txt" 0 9 5 7 false
           root_metadata ∅); done.
Defined.

Lemma ConstructMetadata_trailing_delimiter_new_witness :
  ConstructMetadata ("dir" +:+ kPathDelimiter) 5 false 7 root_metadata
  = Some (Set_ root_metadata "entries"
            (VDict (<["dir" := CreateEntry "dir" true 0 7]> ∅))).
Proof.
  apply (ConstructMetadata_trailing_delimiter_new "dir" 5 false 7 root_metadata ∅);
    reflexivity.
Defined.

Lemma ConstructMetadata_trailing_delimiter_existing_witness :
  ConstructMetadata ("a" +:+ kPathDelimiter) 0 true 9
    (tree_with "a" (fresh_branch "a" ["b.txt"] 5 false 7))
  = Some (tree_with "a" (fresh_branch "a" ["b.txt"] 5 false 7)).
Proof.
  apply (ConstructMetadata_trailing_delimiter_existing "a" 0 true 9
           (tree_with "a" (fresh_branch "a" ["b.txt"] 5 false 7))
           {["a" := fresh_branch "a" ["b.txt"] 5 false 7]}
           (fresh_branch "a" ["b.txt"] 5 false 7));
    reflexivity.
Defined.

(** X7.  A sequence of directory headers keeps a consistent tree
    consistent: every node of the result carries a children mapping exactly
    when it is flagged as a directory. *)
Theorem ConstructAll_directories_consistent (headers : list Header)
    (tree tree' : Var) :
  Forall (λ header : Header, header.1.2 = true) headers →
  consistent_tree tree →
  ConstructAll headers tree = Some tree' →
  consistent_tree tree'.
Proof.
  intros Hdirectories. revert tree.
  induction Hdirectories
    as [|[[[path_name size] is_directory] modification_time] headers
          Hdirectory _ IH];
    intros tree Htree; cbn [ConstructAll]; [by intros [= <-]|].
  cbn in Hdirectory. subst is_directory.
  destruct (ConstructMetadata path_name size true modification_time tree)
    as [tree1|] eqn:Hfirst; [|done].
  cbn [mbind option_bind]. apply IH.
  by destruct (ConstructMetadata_directory_consistent _ _ _ _ _ Htree Hfirst).
Qed.

Lemma ConstructAll_directories_consistent_witness :
  consistent_tree
    (tree_with "docs"
       (Set_ (CreateEntry "docs" true 0 11) "entries"
          (VDict {["img" := CreateEntry "img" true 0 9]}))).
Proof.
  apply (ConstructAll_directories_consistent
           [("docs/img", 0, true, 9); ("docs", 0, true, 11)]%Z root_metadata).
  - repeat constructor.
  - apply CreateEntry_consistent.
  - vm_compute. reflexivity.
Defined.

(** ** The callbacks that create and end a session *)

Section SessionProofs.
Context {A : Type} `{!VolumeArchive A} `{!VolumeArchiveHeaders A}.

Lemma ReadMetadataLoop_eq (volume_archive : A) (metadata : Var) :
  ReadMetadataLoop volume_archive metadata =
    match GetNextHeader volume_archive with
    | (false, _, volume_archive') => Some (volume_archive', None)
    | (true, None, volume_archive') => Some (volume_archive', Some metadata)
    | (true, Some (path_name, size, is_directory, modification_time),
       volume_archive') =>
        metadata' ←
          ConstructMetadata path_name size is_directory modification_time metadata;
        ReadMetadataLoop volume_archive' metadata'
    end.
Proof.
  simp ReadMetadataLoop.
  change (GetNextHeader volume_archive)
    with (proj1_sig (inspect (GetNextHeader volume_archive))) at 2.
  generalize (inspect (GetNextHeader volume_archive)).
  intros [[[[] [[[[path_name size] is_directory] modification_time]|]] a'] Hnext];
    simp ReadMetadataLoop; done.
Qed.

Lemma OpenFileLoop_eq (volume_archive : A) (file_path : string) :
  OpenFileLoop volume_archive file_path =
    match GetNextHeader volume_archive with
    | (false, _, volume_archive') => Some (volume_archive', false)
    | (true, None, volume_archive') => None
    | (true, Some (path_name, _, _, _), volume_archive') =>
        if String.eqb file_path (kPathDelimiter +:+ path_name)
        then Some (volume_archive', true)
        else OpenFileLoop volume_archive' file_path
    end.
Proof.
  simp OpenFileLoop.
  change (GetNextHeader volume_archive)
    with (proj1_sig (inspect (GetNextHeader volume_archive))) at 2.
  generalize (inspect (GetNextHeader volume_archive)).
  intros [[[[] [[[[path_name size] is_directory] modification_time]|]] a'] Hnext];
    simp OpenFileLoop; try done.
  cbn [proj1_sig]. destruct (String.eqb file_path _); [done|].
  by simp OpenFileLoop.
Qed.

Lemma remaining_headers_eq (volume_archive : A) :
  remaining_headers volume_archive =
    match GetNextHeader volume_archive with
    | (false, _, volume_archive') => (false, [], volume_archive')
    | (true, None, volume_archive') => (true, [], volume_archive')
    | (true, Some header, volume_archive') =>
        let rest := remaining_headers volume_archive' in
        (rest.1.1, header :: rest.1.2, rest.2)
    end.
Proof.
  simp remaining_headers.
  change (GetNextHeader volume_archive)
    with (proj1_sig (inspect (GetNextHeader volume_archive))) at 2.
  generalize (inspect (GetNextHeader volume_archive)).
  intros [[[[] [header|]] a'] Hnext]; simp remaining_headers; try done.
  cbn [proj1_sig]. by simp remaining_headers.
Qed.

(** Induction on the headers an archive still has. *)
Lemma headers_induction (P : A → Prop) :
  (∀ a, (∀ header a', GetNextHeader a = (true, Some header, a') → P a') → P a) →
  ∀ a, P a.
Proof.
  intros Hstep a. remember (headers_left a) as k eqn:Hk. revert a Hk.
  induction k as [k IH] using lt_wf_ind. intros a ->.
  apply Hstep. intros header a' Hnext. apply (IH (headers_left a')); [|done].
  pose proof (GetNextHeader_progress a) as Hprogress.
  rewrite Hnext in Hprogress. by apply Hprogress.
Qed.

(** The loop of ReadMetadataCallback folds ConstructMetadata over the
    headers the archive returns. *)
Lemma ReadMetadataLoop_remaining (volume_archive : A) :
  ∀ metadata,
  ReadMetadataLoop volume_archive metadata =
    let drained := remaining_headers volume_archive in
    tree ← ConstructAll drained.1.2 metadata;
    Some (drained.2, if drained.1.1 then Some tree else None).
Proof.
  induction volume_archive as [a IH] using headers_induction. intros metadata.
  rewrite ReadMetadataLoop_eq, remaining_headers_eq.
  destruct (GetNextHeader a)
    as [[[] [[[[path_name size] is_directory] modification_time]|]] a'] eqn:Hnext;
    [|done|done|done].
  cbn [ConstructAll fst snd]. cbv zeta.
  destruct (ConstructMetadata _ _ _ _ metadata) as [metadata'|]; [|done].
  cbn [mbind option_bind]. by rewrite (IH _ _ eq_refl).
Qed.

Lemma remaining_headers_request_id (volume_archive : A) :
  request_id (remaining_headers volume_archive).2 = request_id volume_archive.
Proof.
  induction volume_archive as [a IH] using headers_induction.
  rewrite remaining_headers_eq.
  pose proof (GetNextHeader_request_id a) as Hid.
  destruct (GetNextHeader a) as [[[] [header|]] a'] eqn:Hnext; cbn in *;
    [|done|done|done].
  by rewrite (IH _ _ eq_refl).
Qed.

Lemma OpenFileLoop_request_id (volume_archive : A) (file_path : string)
    (loop : A * bool) :
  OpenFileLoop volume_archive file_path = Some loop →
  request_id loop.1 = request_id volume_archive.
Proof.
  induction volume_archive as [a IH] using headers_induction.
  rewrite OpenFileLoop_eq.
  pose proof (GetNextHeader_request_id a) as Hid.
  destruct (GetNextHeader a)
    as [[[] [[[[path_name size] is_directory] modification_time]|]] a'] eqn:Hnext;
    cbn in Hid; [|done|by intros [= <-]|by intros [= <-]].
  destruct (String.eqb file_path _); [by intros [= <-]|].
  intros Hloop. by rewrite (IH _ _ eq_refl Hloop).
Qed.

Lemma set_reads_set_reads (v : Volume A) (reads reads' : gmap string A) :
  set_reads (set_reads v reads) reads' = set_reads v reads'.
Proof. done. Qed.

(** Cleaning up an archive that was stored under a new key restores the
    Volume. *)
Lemma CleanupVolumeArchive_restores (v : Volume A) (volume_archive : A)
    (post_cleanup_error : bool) :
  worker_reads_in_progress_ v !! request_id volume_archive = None →
  CleanupVolumeArchive volume_archive post_cleanup_error
    (set_reads v (<[request_id volume_archive := volume_archive]>
                    (worker_reads_in_progress_ v)))
  = Some (if negb (Cleanup volume_archive).1 && post_cleanup_error
          then (false,
                [SendFileSystemError (file_system_id_ v)
                   (request_id volume_archive)
                   (error_message (Cleanup volume_archive).2)])
          else (true, []),
          v).
Proof.
  intros Hnew. unfold CleanupVolumeArchive. cbn [worker_reads_in_progress_ set_reads].
  rewrite bool_decide_eq_true_2 by (rewrite lookup_insert_eq; eauto).
  cbn [PP_DCHECK mbind option_bind]. rewrite delete_insert_id by done.
  rewrite Cleanup_request_id. destruct v as [fs reads].
  by destruct (negb _ && _).
Qed.

Lemma stored_request_id (request_id_ : string) (archive_size : Z) :
  request_id (Init (NewVolumeArchive request_id_ archive_size)).2 = request_id_.
Proof. by rewrite Init_request_id, NewVolumeArchive_request_id. Qed.

(** What CreateVolumeArchive does for a request id that is new. *)
Lemma CreateVolumeArchive_new (request_id_ : string) (archive_size : Z)
    (v : Volume A) :
  worker_reads_in_progress_ v !! request_id_ = None →
  CreateVolumeArchive request_id_ archive_size v =
    Some (if negb (reader_Open request_id_ archive_size) then
            (None,
             [SendFileSystemError (file_system_id_ v) request_id_
                "Couldn't open volume reader."],
             v)
          else
            let init := Init (NewVolumeArchive request_id_ archive_size) in
            if negb init.1 then
              (None,
               [SendFileSystemError (file_system_id_ v) request_id_
                  (error_message init.2)],
               v)
            else
              (Some init.2, [],
               set_reads v (<[request_id_ := init.2]> (worker_reads_in_progress_ v)))).
Proof.
  intros Hnew. unfold CreateVolumeArchive.
  destruct (reader_Open request_id_ archive_size); [|done]. cbn [negb].
  rewrite bool_decide_eq_true_2 by done. cbn [PP_DCHECK mbind option_bind].
  cbv zeta. rewrite !set_reads_set_reads.
  cbn [worker_reads_in_progress_ set_reads]. rewrite insert_insert_eq.
  destruct (Init _).1 eqn:Hinit; [done|]. cbn [negb].
  pose proof (CleanupVolumeArchive_restores v
                (Init (NewVolumeArchive request_id_ archive_size)).2 false) as Hclean.
  rewrite stored_request_id in Hclean. rewrite (Hclean Hnew).
  cbn [mbind option_bind]. by rewrite andb_false_r.
Qed.

(** X8.  CreateVolumeArchive, called with a request id that is new, either
    returns NULL, sends one error message for the request and leaves the
    registry as it was, or returns an archive that carries the request id,
    sends nothing and has stored the archive under the request id. *)
Theorem CreateVolumeArchive_outcome (request_id_ : string) (archive_size : Z)
    (v : Volume A) :
  GetVolumeArchive v request_id_ = None →
  ∃ created,
    CreateVolumeArchive request_id_ archive_size v = Some created ∧
    match created.1.1 with
    | None =>
        created.2 = v ∧
        ∃ message,
          created.1.2 = [SendFileSystemError (file_system_id_ v) request_id_ message]
    | Some volume_archive =>
        created.1.2 = [] ∧
        request_id volume_archive = request_id_ ∧
        created.2 = set_reads v (<[request_id_ := volume_archive]>
                                   (worker_reads_in_progress_ v))
    end.
Proof.
  intros Hnew. rewrite CreateVolumeArchive_new by done.
  eexists. split; [reflexivity|].
  destruct (reader_Open _ _); cbn [negb fst snd]; [|by eauto].
  cbv zeta. destruct (Init _).1; cbn [negb fst snd]; [|by eauto].
  split; [done|]. split; [apply stored_request_id|done].
Qed.

(** What ReadMetadataCallback does for a request id that is new. *)
Lemma ReadMetadataCallback_new (request_id_ : string) (archive_size : Z)
    (v : Volume A) :
  worker_reads_in_progress_ v !! request_id_ = None →
  ReadMetadataCallback request_id_ archive_size v =
    if negb (reader_Open request_id_ archive_size) then
      Some ([Sent (SendFileSystemError (file_system_id_ v) request_id_
                     "Couldn't open volume reader.")], v)
    else
      let init := Init (NewVolumeArchive request_id_ archive_size) in
      if negb init.1 then
        Some ([Sent (SendFileSystemError (file_system_id_ v) request_id_
                       (error_message init.2))], v)
      else
        let drained := remaining_headers init.2 in
        tree ← ConstructAll drained.1.2 root_metadata;
        if negb drained.1.1 then
          Some ([Sent (SendFileSystemError (file_system_id_ v) request_id_
                         (error_message drained.2))], v)
        else if negb (Cleanup drained.2).1 then
          Some ([Sent (SendFileSystemError (file_system_id_ v) request_id_
                         (error_message (Cleanup drained.2).2))], v)
        else Some ([SendReadMetadataDone (file_system_id_ v) request_id_ tree], v).
Proof.
  intros Hnew. unfold ReadMetadataCallback.
  rewrite CreateVolumeArchive_new by done. cbn [mbind option_bind].
  destruct (reader_Open _ _); cbn [negb]; [|done]. cbv zeta.
  destruct (Init _).1 eqn:Hinit; cbn [negb fst snd]; [|done].
  rewrite ReadMetadataLoop_remaining. cbv zeta.
  change (CreateEntry kPathDelimiter true 0 0) with root_metadata.
  destruct (ConstructAll _ root_metadata) as [tree|]; [|done].
  cbn [mbind option_bind fst snd].
  rewrite !set_reads_set_reads. cbn [worker_reads_in_progress_ set_reads].
  rewrite insert_insert_eq.
  set (drained := remaining_headers _).
  assert (request_id drained.2 = request_id_) as Hid.
  { subst drained. by rewrite remaining_headers_request_id, stored_request_id. }
  destruct drained.1.1; cbn [negb].
  - pose proof (CleanupVolumeArchive_restores v drained.2 true) as Hclean.
    rewrite Hid in Hclean. rewrite (Hclean Hnew). cbn [mbind option_bind].
    rewrite andb_true_r. by destruct (Cleanup drained.2).1.
  - pose proof (CleanupVolumeArchive_restores v drained.2 false) as Hclean.
    rewrite Hid in Hclean. rewrite (Hclean Hnew). cbn [mbind option_bind].
    by rewrite andb_false_r.
Qed.

(** X9.  ReadMetadataCallback, when it returns, has sent exactly one
    message for the request, the metadata or an error, and has left the
    Volume as it was: no session outlives it. *)
Theorem ReadMetadataCallback_one_reply (request_id_ : string) (archive_size : Z)
    (v v' : Volume A) (replies : list Reply) :
  GetVolumeArchive v request_id_ = None →
  ReadMetadataCallback request_id_ archive_size v = Some (replies, v') →
  v' = v ∧
  ((∃ metadata,
      replies = [SendReadMetadataDone (file_system_id_ v) request_id_ metadata])
   ∨ (∃ message,
      replies = [Sent (SendFileSystemError (file_system_id_ v) request_id_ message)])).
Proof.
  intros Hnew. rewrite ReadMetadataCallback_new by done.
  destruct (reader_Open _ _); cbn [negb]; [|intros [= <- <-]; by eauto].
  cbv zeta. destruct (Init _).1; cbn [negb]; [|intros [= <- <-]; by eauto].
  destruct (ConstructAll _ _) as [tree|]; [|done]. cbn [mbind option_bind].
  destruct (remaining_headers _).1.1; cbn [negb]; [|intros [= <- <-]; by eauto].
  destruct (Cleanup _).1; cbn [negb]; intros [= <- <-]; by eauto.
Qed.

(** X10.  When the reader opens, Init succeeds, the headers end without a
    failure and Cleanup succeeds, the metadata ReadMetadataCallback sends is
    ConstructMetadata folded over the headers of the archive, in their
    order, from the root entry. *)
Theorem ReadMetadataCallback_sends_tree (request_id_ : string) (archive_size : Z)
    (v : Volume A) (tree : Var) :
  GetVolumeArchive v request_id_ = None →
  reader_Open request_id_ archive_size = true →
  let init := Init (NewVolumeArchive request_id_ archive_size) in
  let drained := remaining_headers init.2 in
  init.1 = true →
  drained.1.1 = true →
  ConstructAll drained.1.2 root_metadata = Some tree →
  (Cleanup drained.2).1 = true →
  ReadMetadataCallback request_id_ archive_size v
  = Some ([SendReadMetadataDone (file_system_id_ v) request_id_ tree], v).
Proof.
  intros Hnew Hopen init drained Hinit Hend Htree Hclean.
  rewrite ReadMetadataCallback_new by done. rewrite Hopen. cbn [negb]. cbv zeta.
  fold init. rewrite Hinit. cbn [negb]. fold drained.
  rewrite Htree. cbn [mbind option_bind]. by rewrite Hend, Hclean.
Qed.

(** What OpenFileCallback does for a request id that is new. *)
Lemma OpenFileCallback_new (request_id_ file_path : string) (archive_size : Z)
    (v : Volume A) :
  worker_reads_in_progress_ v !! request_id_ = None →
  OpenFileCallback request_id_ file_path archive_size v =
    if negb (reader_Open request_id_ archive_size) then
      Some ([Sent (SendFileSystemError (file_system_id_ v) request_id_
                     "Couldn't open volume reader.")], v)
    else
      let init := Init (NewVolumeArchive request_id_ archive_size) in
      if negb init.1 then
        Some ([Sent (SendFileSystemError (file_system_id_ v) request_id_
                       (error_message init.2))], v)
      else
        loop ← OpenFileLoop init.2 file_path;
        if negb loop.2 then
          Some ([Sent (SendFileSystemError (file_system_id_ v) request_id_
                         (error_message loop.1))], v)
        else
          Some ([SendOpenFileDone (file_system_id_ v) request_id_],
                set_reads v (<[request_id_ := loop.1]> (worker_reads_in_progress_ v))).
Proof.
  intros Hnew. unfold OpenFileCallback.
  rewrite CreateVolumeArchive_new by done. cbn [mbind option_bind].
  destruct (reader_Open _ _); cbn [negb]; [|done]. cbv zeta.
  destruct (Init _).1 eqn:Hinit; cbn [negb fst snd]; [|done].
  destruct (OpenFileLoop _ file_path) as [loop|] eqn:Hloop; [|done].
  cbn [mbind option_bind].
  rewrite !set_reads_set_reads. cbn [worker_reads_in_progress_ set_reads].
  rewrite insert_insert_eq.
  destruct loop.2; cbn [negb]; [done|].
  assert (request_id loop.1 = request_id_) as Hid.
  { rewrite (OpenFileLoop_request_id _ _ _ Hloop). apply stored_request_id. }
  pose proof (CleanupVolumeArchive_restores v loop.1 false) as Hclean.
  rewrite Hid in Hclean. rewrite (Hclean Hnew). cbn [mbind option_bind].
  by rewrite andb_false_r.
Qed.

(** X11.  OpenFileCallback, when it returns, either has answered open-done
    and holds an archive of that request id under the request id, or has
    answered one error message and left the Volume as it was. *)
Theorem OpenFileCallback_outcome (request_id_ file_path : string)
    (archive_size : Z) (v v' : Volume A) (replies : list Reply) :
  GetVolumeArchive v request_id_ = None →
  OpenFileCallback request_id_ file_path archive_size v = Some (replies, v') →
  (replies = [SendOpenFileDone (file_system_id_ v) request_id_] ∧
   ∃ volume_archive,
     request_id volume_archive = request_id_ ∧
     v' = set_reads v (<[request_id_ := volume_archive]>
                         (worker_reads_in_progress_ v)))
  ∨ (v' = v ∧
     ∃ message,
       replies = [Sent (SendFileSystemError (file_system_id_ v) request_id_ message)]).
Proof.
  intros Hnew. rewrite OpenFileCallback_new by done.
  destruct (reader_Open _ _); cbn [negb]; [|intros [= <- <-]; by eauto].
  cbv zeta. destruct (Init _).1; cbn [negb]; [|intros [= <- <-]; by eauto].
  destruct (OpenFileLoop _ file_path) as [loop|] eqn:Hloop; [|done].
  cbn [mbind option_bind].
  destruct loop.2; cbn [negb]; intros [= <- <-]; [|by eauto].
  left. split; [done|]. exists loop.1. split; [|done].
  rewrite (OpenFileLoop_request_id _ _ _ Hloop). apply stored_request_id.
Qed.

(** The loop of OpenFileCallback reaches a file that is among the headers
    the archive returns. *)
Lemma OpenFileLoop_reaches (volume_archive : A) (path_name : string) :
  path_name ∈ (λ header : Header, header.1.1.1)
                <$> (remaining_headers volume_archive).1.2 →
  ∃ volume_archive',
    OpenFileLoop volume_archive (kPathDelimiter +:+ path_name)
    = Some (volume_archive', true).
Proof.
  induction volume_archive as [a IH] using headers_induction.
  rewrite OpenFileLoop_eq, remaining_headers_eq.
  destruct (GetNextHeader a)
    as [[[] [[[[name size] is_directory] modification_time]|]] a'] eqn:Hnext;
    cbn [fst snd fmap list_fmap]; try (by intros ?%elem_of_nil).
  cbv zeta. cbn [fst snd fmap list_fmap]. intros Hin.
  destruct (String.eqb_spec (kPathDelimiter +:+ path_name)
              (kPathDelimiter +:+ name)) as [Heq|Hne]; [by eauto|].
  apply elem_of_cons in Hin as [->|Hin]; [done|].
  by apply (IH _ _ eq_refl).
Qed.

(** X12.  A file whose path is among the headers the archive returns is
    reached: OpenFileCallback answers open-done and keeps the session. *)
Theorem OpenFileCallback_reaches_file (request_id_ path_name : string)
    (archive_size : Z) (v : Volume A) :
  GetVolumeArchive v request_id_ = None →
  reader_Open request_id_ archive_size = true →
  let init := Init (NewVolumeArchive request_id_ archive_size) in
  init.1 = true →
  path_name ∈ (λ header : Header, header.1.1.1)
                <$> (remaining_headers init.2).1.2 →
  ∃ volume_archive,
    OpenFileCallback request_id_ (kPathDelimiter +:+ path_name) archive_size v
    = Some ([SendOpenFileDone (file_system_id_ v) request_id_],
            set_reads v (<[request_id_ := volume_archive]>
                           (worker_reads_in_progress_ v))).
Proof.
  intros Hnew Hopen init Hinit Hin.
  rewrite OpenFileCallback_new by done. rewrite Hopen. cbn [negb]. cbv zeta.
  fold init. rewrite Hinit. cbn [negb].
  destruct (OpenFileLoop_reaches _ _ Hin) as [a' ->]. cbn. by eauto.
Qed.

Lemma ReadFileLoop_request_id (file_system_id request_id_ : string)
    (volume_archive : A) (offset len : Z) :
  request_id (ReadFileLoop file_system_id request_id_ volume_archive offset len).2
  = request_id volume_archive.
Proof.
  remember (Z.to_nat len) as k eqn:Hk. revert volume_archive offset len Hk.
  induction k as [k IH] using lt_wf_ind. intros a offset len Hk.
  rewrite ReadFileLoop_eq. cbv zeta.
  destruct (decide (0 < len)%Z) as [Hlen|Hlen]; [|done].
  set (n := Z.min len kReadBufferSizeMax).
  assert (0 < n)%Z by (unfold n, kReadBufferSizeMax; lia).
  pose proof (ReadData_request_id a offset n (replicate (Z.to_nat n) x00)) as Hid.
  destruct (ReadData a offset n _) as [[ok buffer] a']. cbn [fst snd] in *.
  destruct ok; cbn [negb fst snd]; [|done].
  rewrite (IH (Z.to_nat (len - n))); [done|lia|done].
Qed.

(** X14.  Opening a file, reading from it and closing it leaves the Volume
    as it was before the open, and the close is answered with close-done. *)
Theorem open_read_close_restores (open_id read_id close_id file_path : string)
    (archive_size : Z) (request : ReadFileRequest)
    (v v1 v2 : Volume A) (events : list Event) :
  GetVolumeArchive v open_id = None →
  open_request_id request = open_id →
  OpenFileCallback open_id file_path archive_size v
    = Some ([SendOpenFileDone (file_system_id_ v) open_id], v1) →
  ReadFileCallback read_id request v1 = Some (events, v2) →
  CloseFileCallback close_id open_id v2
  = Some ([SendCloseFileDone (file_system_id_ v) close_id open_id], v).
Proof.
  intros Hnew Hrequest. rewrite OpenFileCallback_new by done.
  destruct (reader_Open _ _); cbn [negb]; [|done].
  cbv zeta. destruct (Init _).1; cbn [negb]; [|done].
  destruct (OpenFileLoop _ file_path) as [loop|] eqn:Hloop; [|done].
  cbn [mbind option_bind]. destruct loop.2; cbn [negb]; [|done].
  intros [= <-].
  assert (request_id loop.1 = open_id) as Hid.
  { rewrite (OpenFileLoop_request_id _ _ _ Hloop). apply stored_request_id. }
  unfold ReadFileCallback, GetVolumeArchive. rewrite Hrequest.
  cbn [worker_reads_in_progress_ set_reads file_system_id_].
  rewrite lookup_insert_eq. cbn [mbind option_bind]. intros [= <- <-].
  rewrite insert_insert_eq.
  set (a2 := (ReadFileLoop _ _ _ _ _).2).
  assert (request_id a2 = open_id) as Hid2.
  { subst a2. by rewrite ReadFileLoop_request_id. }
  unfold CloseFileCallback, GetVolumeArchive.
  cbn [worker_reads_in_progress_ set_reads]. rewrite lookup_insert_eq.
  cbn [mbind option_bind].
  pose proof (CleanupVolumeArchive_restores v a2 false) as Hclean.
  rewrite Hid2 in Hclean. rewrite set_reads_set_reads.
  unfold GetVolumeArchive in Hnew. rewrite (Hclean Hnew).
  cbn [mbind option_bind]. by rewrite andb_false_r.
Qed.

End SessionProofs.

Lemma CreateVolumeArchive_outcome_witness :
  ∃ created,
    CreateVolumeArchive "open-1" 1000 no_sessions = Some created ∧
    match created.1.1 with
    | None =>
        created.2 = no_sessions ∧
        ∃ message,
          created.1.2
          = [SendFileSystemError (file_system_id_ no_sessions) "open-1" message]
    | Some volume_archive =>
        created.1.2 = [] ∧
        request_id volume_archive = "open-1" ∧
        created.2 = set_reads no_sessions
                      (<["open-1" := volume_archive]>
                         (worker_reads_in_progress_ no_sessions))
    end.
Proof. apply (CreateVolumeArchive_outcome "open-1" 1000 no_sessions). reflexivity. Defined.

Lemma ReadMetadataCallback_one_reply_witness :
  no_sessions = no_sessions ∧
  ((∃ metadata,
      [SendReadMetadataDone "fs" "meta-1" (tree_with "a" (merged_a 5 7 0 9 true))]
      = [SendReadMetadataDone (file_system_id_ no_sessions) "meta-1" metadata])
   ∨ (∃ message,
      [SendReadMetadataDone "fs" "meta-1" (tree_with "a" (merged_a 5 7 0 9 true))]
      = [Sent (SendFileSystemError (file_system_id_ no_sessions) "meta-1" message)])).
Proof.
  apply (ReadMetadataCallback_one_reply "meta-1" 1000 no_sessions no_sessions).
  - reflexivity.
  - vm_compute. reflexivity.
Defined.

Lemma ReadMetadataCallback_sends_tree_witness :
  ReadMetadataCallback "meta-1" 1000 no_sessions
  = Some ([SendReadMetadataDone (file_system_id_ no_sessions) "meta-1"
             (tree_with "a" (merged_a 5 7 0 9 true))],
          no_sessions).
Proof.
  apply (ReadMetadataCallback_sends_tree "meta-1" 1000 no_sessions).
  - reflexivity.
  - reflexivity.
  - reflexivity.
  - vm_compute. reflexivity.
  - vm_compute. reflexivity.
  - vm_compute. reflexivity.
Defined.

Lemma OpenFileCallback_outcome_witness :
  ([SendOpenFileDone "fs" "open-1"]
   = [SendOpenFileDone (file_system_id_ no_sessions) "open-1"] ∧
   ∃ volume_archive,
     request_id volume_archive = "open-1" ∧
     opened_b = set_reads no_sessions
                  (<["open-1" := volume_archive]>
                     (worker_reads_in_progress_ no_sessions)))
  ∨ (opened_b = no_sessions ∧
     ∃ message,
       [SendOpenFileDone "fs" "open-1"]
       = [Sent (SendFileSystemError (file_system_id_ no_sessions) "open-1" message)]).
Proof.
  apply (OpenFileCallback_outcome "open-1" "/a/b.txt" 1000 no_sessions).
  - reflexivity.
  - vm_compute. reflexivity.
Defined.

Lemma OpenFileCallback_reaches_file_witness :
  ∃ volume_archive,
    OpenFileCallback "open-2" (kPathDelimiter +:+ "a") 1000 no_sessions
    = Some ([SendOpenFileDone (file_system_id_ no_sessions) "open-2"],
            set_reads no_sessions
              (<["open-2" := volume_archive]>
                 (worker_reads_in_progress_ no_sessions))).
Proof.
  apply (OpenFileCallback_reaches_file "open-2" "a" 1000 no_sessions).
  - reflexivity.
  - reflexivity.
  - reflexivity.
  - vm_compute. repeat constructor.
Defined.

Lemma open_read_close_restores_witness :
  CloseFileCallback "close-1" "open-1" opened_b
  = Some ([SendCloseFileDone (file_system_id_ no_sessions) "close-1" "open-1"],
          no_sessions).
Proof.
  apply (open_read_close_restores "open-1" "read-1" "close-1" "/a/b.txt" 1000
           read_5_at_0 no_sessions opened_b opened_b
           [ReadDataCall 0 5 true;
            SendReadFileDone "fs" "read-1" (replicate 5 x00) false]).
  - reflexivity.
  - reflexivity.
  - vm_compute. reflexivity.
  - vm_compute. reflexivity.
Defined.

(** ** Bounds and frames of the per-request callbacks *)

Section TraceProofs.
Context {A : Type} `{!VolumeArchive A}.

(** X13.  CloseFileCallback answers close-done and erases the entry of
    the archive's request id whatever Cleanup returns: the error message of
    its failure branch is never sent. *)
Theorem CloseFileCallback_always_done (request_id_ open_request_id : string)
    (v : Volume A) (volume_archive : A) :
  GetVolumeArchive v open_request_id = Some volume_archive →
  is_Some (GetVolumeArchive v (request_id volume_archive)) →
  CloseFileCallback request_id_ open_request_id v
  = Some ([SendCloseFileDone (file_system_id_ v) request_id_ open_request_id],
          set_reads v (delete (request_id volume_archive)
                         (worker_reads_in_progress_ v))).
Proof.
  intros Hget Hregistered. unfold CloseFileCallback. rewrite Hget.
  cbn [mbind option_bind]. unfold CleanupVolumeArchive, GetVolumeArchive in *.
  rewrite bool_decide_eq_true_2 by done. cbn [PP_DCHECK mbind option_bind].
  by rewrite andb_false_r.
Qed.

Lemma loop_run_bounded (file_system_id request_id_ : string) (final : A)
    (offset len : Z) (events : list Event) :
  loop_run file_system_id request_id_ final offset len events →
  Forall (read_file_event file_system_id request_id_) events ∧
  (Z.of_nat (length (read_calls events))
   ≤ (Z.max len 0 + kReadBufferSizeMax - 1) / kReadBufferSizeMax)%Z.
Proof.
  induction 1 as [offset len Hlen|offset len Hlen
                 |offset len buffer events Hlen Hbuf Hrun [IHall IHcount]].
  - split; [constructor|]. cbn. apply Z.div_pos; unfold kReadBufferSizeMax; lia.
  - split.
    + repeat constructor; cbn; unfold kReadBufferSizeMax; lia.
    + cbn. apply (Z.div_le_lower_bound _ _ 1); unfold kReadBufferSizeMax; lia.
  - set (n := Z.min len kReadBufferSizeMax) in *.
    assert (0 < n ≤ len ∧ n ≤ kReadBufferSizeMax)%Z as Hn
      by (unfold n, kReadBufferSizeMax; lia).
    split.
    + constructor; [unfold read_file_event; lia|].
      constructor; [|done]. unfold read_file_event. rewrite Hbuf.
      repeat split; try done; lia.
    + change (read_calls (_ :: _ :: events))
        with ((offset, n, true) :: read_calls events).
      cbn [length]. destruct (decide (len ≤ kReadBufferSizeMax)%Z) as [Hle|Hgt].
      * assert (len - n ≤ 0)%Z as Hend by lia.
        rewrite (loop_run_nonpositive _ _ _ _ _ _ Hrun Hend). cbn.
        apply (Z.div_le_lower_bound _ _ 1); unfold kReadBufferSizeMax; lia.
      * replace n with kReadBufferSizeMax in * by lia.
        replace (Z.max len 0 + kReadBufferSizeMax - 1)%Z
          with ((Z.max (len - kReadBufferSizeMax) 0 + kReadBufferSizeMax - 1)
                + 1 * kReadBufferSizeMax)%Z by lia.
        rewrite Z.div_add by (unfold kReadBufferSizeMax; lia). lia.
Qed.

(** X15.  ReadFileCallback never asks ReadData for more than 512 KB nor
    sends a larger buffer, every message it sends answers the read request,
    and it makes at most ceil(length / 512 KB) ReadData calls. *)
Theorem ReadFileCallback_bounded (v : Volume A) (request_id_ : string)
    (request : ReadFileRequest) (volume_archive : A) :
  GetVolumeArchive v (open_request_id request) = Some volume_archive →
  ∃ events v',
    ReadFileCallback request_id_ request v = Some (events, v') ∧
    Forall (read_file_event (file_system_id_ v) request_id_) events ∧
    (Z.of_nat (length (read_calls events))
     ≤ (Z.max (length_ request) 0 + kReadBufferSizeMax - 1) / kReadBufferSizeMax)%Z.
Proof.
  intros Hget. unfold ReadFileCallback. rewrite Hget. cbn [mbind option_bind].
  eexists _, _. split; [reflexivity|]. cbn [fst].
  apply (loop_run_bounded _ _ _ _ _ _ (ReadFileLoop_run _ _ _ _ _)).
Qed.

End TraceProofs.

Lemma CloseFileCallback_always_done_witness :
  CloseFileCallback "close-1" "open-1" (fake_volume (fake_archive 0 false))
  = Some ([SendCloseFileDone (file_system_id_ (fake_volume (fake_archive 0 false)))
             "close-1" "open-1"],
          set_reads (fake_volume (fake_archive 0 false))
            (delete (request_id (fake_archive 0 false))
               (worker_reads_in_progress_ (fake_volume (fake_archive 0 false))))).
Proof.
  apply (CloseFileCallback_always_done "close-1" "open-1"
           (fake_volume (fake_archive 0 false)) (fake_archive 0 false)).
  - reflexivity.
  - vm_compute. eexists. reflexivity.
Defined.

Lemma ReadFileCallback_bounded_witness :
  ∃ events v',
    ReadFileCallback "read-1" read_600000_at_10 (fake_volume (fake_archive 2 true))
      = Some (events, v') ∧
    Forall (read_file_event (file_system_id_ (fake_volume (fake_archive 2 true)))
              "read-1") events ∧
    (Z.of_nat (length (read_calls events))
     ≤ (Z.max (length_ read_600000_at_10) 0 + kReadBufferSizeMax - 1)
       / kReadBufferSizeMax)%Z.
Proof.
  apply (ReadFileCallback_bounded (fake_volume (fake_archive 2 true)) "read-1"
           read_600000_at_10 (fake_archive 2 true)).
  reflexivity.
Defined.

Section NotificationProofs.
Context {A : Type} `{!VolumeArchive A}.

(** X16.  A chunk-arrival or chunk-error notification sends nothing, keeps
    the set of registered sessions, and leaves the archive of every other
    request as it was. *)
Theorem chunk_notification_frame (v : Volume A) (request_id_ : string)
    (array_buffer : list byte) (read_offset : Z) :
  let arrived := ReadChunkDone request_id_ array_buffer read_offset v in
  let failed := ReadChunkError request_id_ v in
  arrived.1 = [] ∧ failed.1 = [] ∧
  dom (worker_reads_in_progress_ arrived.2) = dom (worker_reads_in_progress_ v) ∧
  dom (worker_reads_in_progress_ failed.2) = dom (worker_reads_in_progress_ v) ∧
  ∀ other, other ≠ request_id_ →
    GetVolumeArchive arrived.2 other = GetVolumeArchive v other ∧
    GetVolumeArchive failed.2 other = GetVolumeArchive v other.
Proof.
  unfold ReadChunkDone, ReadChunkError, GetVolumeArchive.
  destruct (worker_reads_in_progress_ v !! request_id_) as [volume_archive|]
    eqn:Hget; cbn [fst snd worker_reads_in_progress_ set_reads]; [|done].
  rewrite !dom_insert_lookup_L by (by rewrite Hget).
  repeat split; try done; by rewrite lookup_insert_ne.
Qed.

End NotificationProofs.
